(** * todo-convex: the todo mutations and queries of [convex/todos.ts]

  A shallow embedding of the six Convex functions of [convex/todos.ts]
  ([createTodo], [listTodos], [getTodo], [updateTodo], [deleteTodo],
  [toggleTodoCompleted]) together with a model of the part of the
  Convex document store ([ctx.db]) they call, and the properties of
  the data-access layer proved over it. *)

From Stdlib Require Import String Ascii.
From stdpp Require Import gmap list sorting fin_maps.

Local Open Scope N_scope.

(** ** JavaScript strings *)

(** A JavaScript string is a sequence of UTF-16 code units; [length] is
  the number of code units, which is what [s.length] returns. *)
Module JsString.

Abbreviation code_unit := N (only parsing).
Abbreviation t := (list N) (only parsing).

(** The code units [String.prototype.trim] strips: ECMAScript
    WhiteSpace (TAB, VT, FF, ZWNBSP and the Unicode space separators)
    and LineTerminator (LF, CR, LS, PS). *)
Definition is_white_space (c : code_unit) : bool :=
  (c =? 9) || (c =? 10) || (c =? 11) || (c =? 12) || (c =? 13)
  || (c =? 32) || (c =? 160) || (c =? 5760)
  || ((8192 <=? c) && (c <=? 8202))
  || (c =? 8232) || (c =? 8233) || (c =? 8239) || (c =? 8287)
  || (c =? 12288) || (c =? 65279).

(** [s.trimStart()] *)
Fixpoint trimStart (s : t) : t :=
  match s with
  | [] => []
  | c :: s' => if is_white_space c then trimStart s' else s
  end.

(** [s.trimEnd()] *)
Definition trimEnd (s : t) : t := reverse (trimStart (reverse s)).

(** [s.trim()] *)
Definition trim (s : t) : t := trimEnd (trimStart s).

(** Truthiness of a string value: only the empty string is falsy. *)
Definition truthy (s : t) : bool :=
  match s with [] => false | _ => true end.

(** Truthiness of an optional string: [undefined] is falsy too. *)
Definition truthy_opt (o : option t) : bool :=
  match o with None => false | Some s => truthy s end.

(** String literals of the examples, one code unit per ASCII character. *)
Fixpoint of_string (s : string) : t :=
  match s with
  | EmptyString => []
  | String a s' => N_of_ascii a :: of_string s'
  end.

End JsString.

Abbreviation jsstring := (list N) (only parsing).

(** ** Documents of the [todos] table *)

(** A document as the functions return it: the two system fields and the
    three fields of the table. *)
Module Todo.
Record t := mk {
  _id : N;
  _creationTime : N;
  title : jsstring;
  description : option jsstring;
  completed : bool
}.
#[global] Instance eq_dec : EqDecision t.
Proof. solve_decision. Defined.
End Todo.

(** What the table keeps under a document id. *)
Module Row.
Record t := mk {
  creationTime : N;
  title : jsstring;
  description : option jsstring;
  completed : bool
}.
End Row.

Definition doc_of (id : N) (r : Row.t) : Todo.t :=
  Todo.mk id (Row.creationTime r) (Row.title r) (Row.description r)
    (Row.completed r).

(** The object handed to [ctx.db.patch]: a key that is absent leaves the
    field alone, a key that is present overwrites it, and a present key
    whose value is [undefined] removes an optional field. *)
Module Patch.
Record t := mk {
  title : option jsstring;
  description : option (option jsstring);
  completed : option bool
}.
Definition empty : t := mk None None None.
Definition apply (p : t) (r : Row.t) : Row.t :=
  Row.mk (Row.creationTime r)
    (default (Row.title r) (title p))
    (default (Row.description r) (description p))
    (default (Row.completed r) (completed p)).
End Patch.

(** ** The document store behind [ctx.db] *)

(** The table [todos] keyed by document id, the next id the store hands
    out and its clock.  Ids are issued from a counter, so an id is never
    issued twice; every insert stamps the document with the clock and
    advances it, so a later insert carries a later creation time. *)
Module Db.
Record t := mk {
  todos : gmap N Row.t;
  next_id : N;
  clock : N
}.
Definition empty : t := mk ∅ 0 0.
End Db.

(** A handler runs against the store and either returns a value or throws
    an [Error] with a message.  Writes made before a throw stay in the
    store that comes out: nothing is rolled back by the model. *)
Definition Tx (A : Type) : Type := Db.t → Db.t * (string + A).

Definition ret {A} (a : A) : Tx A := λ db, (db, inr a).

Definition throw {A} (msg : string) : Tx A := λ db, (db, inl msg).

Definition bind {A B} (m : Tx A) (k : A → Tx B) : Tx B := λ db,
  match m db with
  | (db', inl msg) => (db', inl msg)
  | (db', inr a) => k a db'
  end.

Notation "'let*' x ':=' m 'in' k" := (bind m (λ x, k))
  (at level 10, x name, m at level 100, k at level 200,
   format "'[v' 'let*'  x  ':='  m  'in' '/' k ']'").

(** [ctx.db.insert("todos", {title, description, completed})] *)
Definition db_insert (title : jsstring) (description : option jsstring)
    (completed : bool) : Tx N := λ db,
  let id := Db.next_id db in
  let row := Row.mk (Db.clock db) title description completed in
  (Db.mk (<[id := row]> (Db.todos db)) (id + 1) (Db.clock db + 1), inr id).

(** [ctx.db.get(id)]: the document, or [null]. *)
Definition db_get (id : N) : Tx (option Todo.t) := λ db,
  (db, inr (doc_of id <$> Db.todos db !! id)).

(** [ctx.db.patch(id, value)]: throws when there is no such document. *)
Definition db_patch (id : N) (value : Patch.t) : Tx unit := λ db,
  match Db.todos db !! id with
  | None => (db, inl "Update on nonexistent document ID"%string)
  | Some r =>
      (Db.mk (<[id := Patch.apply value r]> (Db.todos db))
         (Db.next_id db) (Db.clock db), inr ())
  end.

(** [ctx.db.delete(id)]: throws when there is no such document. *)
Definition db_delete (id : N) : Tx unit := λ db,
  match Db.todos db !! id with
  | None => (db, inl "Delete on nonexistent document ID"%string)
  | Some _ =>
      (Db.mk (delete id (Db.todos db)) (Db.next_id db) (Db.clock db), inr ())
  end.

(** The order of the store's indexes, newest first: every index ends with
    [_creationTime] and breaks ties by [_id]. *)
Definition newer_eq (x y : Todo.t) : Prop :=
  Todo._creationTime y < Todo._creationTime x
  ∨ (Todo._creationTime y = Todo._creationTime x ∧ Todo._id y ≤ Todo._id x).

#[global] Instance newer_eq_dec : RelDecision newer_eq.
Proof. intros x y. unfold newer_eq. apply _. Defined.

(** All documents of the table, in no particular order. *)
Definition db_documents (db : Db.t) : list Todo.t :=
  (λ kv, doc_of kv.1 kv.2) <$> map_to_list (Db.todos db).

(** The documents a query ranges over: the whole table, or with
    [.withIndex("by_completed", q => q.eq("completed", c))] the documents
    whose [completed] field equals [c].  The index is declared in the
    schema; the handler uses it as an index on the field [completed]. *)
Definition db_index_range (completed_eq : option bool) (db : Db.t)
    : list Todo.t :=
  match completed_eq with
  | None => db_documents db
  | Some c => filter (λ d, Todo.completed d = c) (db_documents db)
  end.

(** The first [n] documents of a range in index order, newest first. *)
Definition query_result (completed_eq : option bool) (n : nat) (db : Db.t)
    : list Todo.t :=
  take n (merge_sort newer_eq (db_index_range completed_eq db)).

(** [ctx.db.query("todos").order("desc").take(n)], with the index range
    in front of the order when [completed_eq] is [Some c]. *)
Definition db_query_desc (completed_eq : option bool) (n : nat)
    : Tx (list Todo.t) := λ db,
  (db, inr (query_result completed_eq n db)).

(** ** The functions of [convex/todos.ts] *)

Module CreateArgs.
Record t := mk {
  title : jsstring;
  description : option jsstring;
  completed : bool
}.
End CreateArgs.

(** [limit] ranges over the whole numbers from 0, the values [take] is
    called with. *)
Module ListArgs.
Record t := mk {
  completed : option bool;
  limit : option nat
}.
End ListArgs.

Module UpdateArgs.
Record t := mk {
  todoId : N;
  title : option jsstring;
  description : option jsstring;
  completed : option bool
}.
End UpdateArgs.

Definition createTodo (args : CreateArgs.t) : Tx Todo.t :=
  if negb (JsString.truthy (CreateArgs.title args))
     || (length (JsString.trim (CreateArgs.title args)) =? 0)%nat
  then throw "Title is required"
  else if (200 <? length (CreateArgs.title args))%nat
  then throw "Title must be less than 200 characters"
  else if match CreateArgs.description args with
          | Some d => JsString.truthy d && (1000 <? length d)%nat
          | None => false
          end
  then throw "Description must be less than 1000 characters"
  else
    let* todoId :=
      db_insert (JsString.trim (CreateArgs.title args))
        (JsString.trim <$> CreateArgs.description args)
        (CreateArgs.completed args) in
    let* createdTodo := db_get todoId in
    match createdTodo with
    | None => throw "Failed to create todo"
    | Some createdTodo =>
        ret (Todo.mk (Todo._id createdTodo) (Todo._creationTime createdTodo)
               (Todo.title createdTodo) (Todo.description createdTodo)
               (Todo.completed createdTodo))
    end.

Definition listTodos (args : ListArgs.t) : Tx (list Todo.t) :=
  let limit := default 100%nat (ListArgs.limit args) in
  match ListArgs.completed args with
  | Some completed => db_query_desc (Some completed) limit
  | None => db_query_desc None limit
  end.

Definition getTodo (todoId : N) : Tx (option Todo.t) :=
  let* todo := db_get todoId in
  ret todo.

Definition updateTodo (args : UpdateArgs.t) : Tx Todo.t :=
  let* existingTodo := db_get (UpdateArgs.todoId args) in
  match existingTodo with
  | None => throw "Todo not found"
  | Some _ =>
    let updateData := Patch.empty in
    let* updateData :=
      match UpdateArgs.title args with
      | Some title =>
          if (length (JsString.trim title) =? 0)%nat
          then throw "Title cannot be empty"
          else if (200 <? length title)%nat
          then throw "Title must be less than 200 characters"
          else ret (Patch.mk (Some (JsString.trim title))
                      (Patch.description updateData)
                      (Patch.completed updateData))
      | None => ret updateData
      end in
    let* updateData :=
      match UpdateArgs.description args with
      | Some description =>
          if JsString.truthy description && (1000 <? length description)%nat
          then throw "Description must be less than 1000 characters"
          else ret (Patch.mk (Patch.title updateData)
                      (Some (JsString.trim <$> Some description))
                      (Patch.completed updateData))
      | None => ret updateData
      end in
    let* updateData :=
      match UpdateArgs.completed args with
      | Some completed =>
          ret (Patch.mk (Patch.title updateData)
                 (Patch.description updateData) (Some completed))
      | None => ret updateData
      end in
    let* _ := db_patch (UpdateArgs.todoId args) updateData in
    let* updatedTodo := db_get (UpdateArgs.todoId args) in
    match updatedTodo with
    | None => throw "Failed to update todo"
    | Some updatedTodo =>
        ret (Todo.mk (Todo._id updatedTodo) (Todo._creationTime updatedTodo)
               (Todo.title updatedTodo) (Todo.description updatedTodo)
               (Todo.completed updatedTodo))
    end
  end.

Definition deleteTodo (todoId : N) : Tx unit :=
  let* existingTodo := db_get todoId in
  match existingTodo with
  | None => throw "Todo not found"
  | Some _ =>
    let* _ := db_delete todoId in
    ret ()
  end.

Definition toggleTodoCompleted (todoId : N) : Tx Todo.t :=
  let* existingTodo := db_get todoId in
  match existingTodo with
  | None => throw "Todo not found"
  | Some existingTodo =>
    let newCompletedState := negb (Todo.completed existingTodo) in
    let* _ := db_patch todoId (Patch.mk None None (Some newCompletedState)) in
    let* updatedTodo := db_get todoId in
    match updatedTodo with
    | None => throw "Failed to update todo"
    | Some updatedTodo =>
        ret (Todo.mk (Todo._id updatedTodo) (Todo._creationTime updatedTodo)
               (Todo.title updatedTodo) (Todo.description updatedTodo)
               (Todo.completed updatedTodo))
    end
  end.

(** ** Failures *)

(** The handlers throw plain [Error]s told apart by their message.  The
    three kinds of failure are the names the specification gives them:
    the guards on title and description are [InvalidInput], "Todo not
    found" is [NotFound], and a failed read-back or an error raised by
    the store itself is a [PersistenceError]. *)
Inductive Failure := InvalidInput | NotFound | PersistenceError.

#[global] Instance Failure_eq_dec : EqDecision Failure.
Proof. solve_decision. Defined.

Definition failure_of (msg : string) : Failure :=
  if decide (msg = "Title is required"%string) then InvalidInput
  else if decide (msg = "Title must be less than 200 characters"%string)
  then InvalidInput
  else if decide (msg = "Description must be less than 1000 characters"%string)
  then InvalidInput
  else if decide (msg = "Title cannot be empty"%string) then InvalidInput
  else if decide (msg = "Todo not found"%string) then NotFound
  else PersistenceError.

(** The two messages of the title guards of [createTodo]. *)
Definition title_error (msg : string) : Prop :=
  msg = "Title is required"%string
  ∨ msg = "Title must be less than 200 characters"%string.

(** [fails m db k]: running [m] on [db] throws an error of kind [k]. *)
Definition fails {A} (m : Tx A) (db : Db.t) (k : Failure) : Prop :=
  ∃ msg, (m db).2 = inl msg ∧ failure_of msg = k.

(** ** Histories of the store *)

(** The mutations a client can call. *)
Inductive Call :=
| CallCreate (args : CreateArgs.t)
| CallUpdate (args : UpdateArgs.t)
| CallDelete (todoId : N)
| CallToggle (todoId : N).

(** The store after a call, whether it returned or threw. *)
Definition exec (c : Call) (db : Db.t) : Db.t :=
  match c with
  | CallCreate args => (createTodo args db).1
  | CallUpdate args => (updateTodo args db).1
  | CallDelete todoId => (deleteTodo todoId db).1
  | CallToggle todoId => (toggleTodoCompleted todoId db).1
  end.

(** The store after a sequence of calls, first call first. *)
Definition run (cs : list Call) (db : Db.t) : Db.t :=
  foldl (λ db c, exec c db) db cs.

(** The states of the store a deployment can be in: the empty store and
    whatever the mutations make of it. *)
Inductive reachable : Db.t → Prop :=
| reachable_empty : reachable Db.empty
| reachable_exec c db : reachable db → reachable (exec c db).

(** ** Invariants of the store *)

(** The store's own bookkeeping: every stored id was issued before
    [next_id], every stored creation time was stamped before [clock], and
    no two documents share a creation time. *)
Definition db_wf (db : Db.t) : Prop :=
  (∀ i r, Db.todos db !! i = Some r →
     i < Db.next_id db ∧ Row.creationTime r < Db.clock db)
  ∧ (∀ i j r r', Db.todos db !! i = Some r → Db.todos db !! j = Some r' →
       Row.creationTime r = Row.creationTime r' → i = j).

(** A stored title is within bounds: something is left of it after
    trimming and it is at most 200 code units long. *)
Definition title_ok (title : jsstring) : Prop :=
  JsString.trim title ≠ [] ∧ (length title <= 200)%nat.

Definition titles_ok (db : Db.t) : Prop :=
  ∀ i r, Db.todos db !! i = Some r → title_ok (Row.title r).

(** [newer x y]: [x] was created strictly after [y]. *)
Definition newer (x y : Todo.t) : Prop :=
  Todo._creationTime y < Todo._creationTime x.

(** [stored db d]: [d] is a document of the table. *)
Definition stored (db : Db.t) (d : Todo.t) : Prop :=
  ∃ r, Db.todos db !! Todo._id d = Some r ∧ d = doc_of (Todo._id d) r.

(** The row [updateTodo] writes: a supplied field replaces the stored
    one, an omitted field keeps it. *)
Definition updated_row (args : UpdateArgs.t) (r : Row.t) : Row.t :=
  Row.mk (Row.creationTime r)
    (match UpdateArgs.title args with
     | Some title => JsString.trim title
     | None => Row.title r
     end)
    (match UpdateArgs.description args with
     | Some description => Some (JsString.trim description)
     | None => Row.description r
     end)
    (match UpdateArgs.completed args with
     | Some completed => completed
     | None => Row.completed r
     end).

(** What one call can do to the store: nothing, one insert under the next
    id stamped with the clock, one replacement of a stored row that keeps
    its creation time, or one removal. *)
Inductive store_step (db : Db.t) : Db.t → Prop :=
| step_none : store_step db db
| step_insert title description completed :
    title_ok title →
    store_step db
      (Db.mk (<[Db.next_id db :=
                  Row.mk (Db.clock db) title description completed]>
                (Db.todos db))
         (Db.next_id db + 1) (Db.clock db + 1))
| step_replace id r r' :
    Db.todos db !! id = Some r →
    Row.creationTime r' = Row.creationTime r →
    Row.title r' = Row.title r ∨ title_ok (Row.title r') →
    store_step db
      (Db.mk (<[id := r']> (Db.todos db)) (Db.next_id db) (Db.clock db))
| step_delete id :
    store_step db
      (Db.mk (delete id (Db.todos db)) (Db.next_id db) (Db.clock db)).

(** ** Example stores *)

Definition buy_milk : CreateArgs.t :=
  CreateArgs.mk (JsString.of_string "Buy milk")
    (Some (JsString.of_string "2 litres")) false.

(** One todo, under id 0. *)
Definition db_milk : Db.t := run [CallCreate buy_milk] Db.empty.

Definition row_milk : Row.t :=
  Row.mk 0 (JsString.of_string "Buy milk")
    (Some (JsString.of_string "2 litres")) false.

(** Three todos, the second one completed. *)
Definition db_three : Db.t :=
  run [CallCreate (CreateArgs.mk (JsString.of_string "a") None false);
       CallCreate (CreateArgs.mk (JsString.of_string "b") None true);
       CallCreate (CreateArgs.mk (JsString.of_string "c") None false)]
    Db.empty.

(** One completed todo, then a hundred that are not. *)
Definition db_crowded : Db.t :=
  run (CallCreate (CreateArgs.mk (JsString.of_string "old") None true)
       :: replicate 100
            (CallCreate (CreateArgs.mk (JsString.of_string "new") None false)))
    Db.empty.

Definition doc_old : Todo.t :=
  Todo.mk 0 0 (JsString.of_string "old") None true.

(** A title and a description that are one code unit long once their
    trailing spaces are trimmed. *)
Definition padded_title : jsstring := 97 :: replicate 200 32.
Definition padded_description : jsstring := 97 :: replicate 1000 32.

(** A title of 101 times U+1F600: 101 code points, 202 code units. *)
Definition emoji_title : jsstring := concat (replicate 101 [55357; 56832]).

(** The message a call throws, if it throws. *)
Definition thrown (c : Call) (db : Db.t) : option string :=
  let message {A} (result : string + A) : option string :=
    match result with inl msg => Some msg | inr _ => None end in
  match c with
  | CallCreate args => message (createTodo args db).2
  | CallUpdate args => message (updateTodo args db).2
  | CallDelete todoId => message (deleteTodo todoId db).2
  | CallToggle todoId => message (toggleTodoCompleted todoId db).2
  end.

(** ** The form of [src/routes/todos/index.tsx] *)

(** The part of zod the form's schema uses: a [z.string()] runs its
    chained checks in order over the value; [trim] replaces the value the
    later checks and the output see, [min] and [max] compare the length
    of the value and add their message to the issues.  zod is a
    dependency whose source is not part of the repository: the unit its
    [min] and [max] count the length in is the parameter [measure]. *)
Module Zod.
Inductive check :=
| Trim
| Min (value : nat) (message : string)
| Max (value : nat) (message : string).

Fixpoint run (measure : jsstring → nat) (checks : list check)
    (data : jsstring) : jsstring * list string :=
  match checks with
  | [] => (data, [])
  | Trim :: checks => run measure checks (JsString.trim data)
  | Min value message :: checks =>
      let out := run measure checks data in
      (out.1,
       if (measure data <? value)%nat then message :: out.2 else out.2)
  | Max value message :: checks =>
      let out := run measure checks data in
      (out.1,
       if (value <? measure data)%nat then message :: out.2 else out.2)
  end.

(** Two units a length can be counted in: UTF-16 code units, the
    [length] of the string, and code points, where a high surrogate
    followed by a low surrogate counts once. *)
Definition is_high_surrogate (c : N) : bool := (55296 <=? c) && (c <=? 56319).
Definition is_low_surrogate (c : N) : bool := (56320 <=? c) && (c <=? 57343).

Fixpoint code_points (s : jsstring) : nat :=
  match s with
  | [] => 0
  | c :: s' =>
      match s' with
      | c' :: s'' =>
          if is_high_surrogate c && is_low_surrogate c'
          then S (code_points s'')
          else S (code_points s')
      | [] => 1
      end
  end.
End Zod.

(** [error.flatten().fieldErrors]: the messages per field, an empty list
    standing for a field without an entry.  [completed] is a boolean in
    every value the form holds and never has one. *)
Module FieldErrors.
Record t := mk {
  title : list string;
  description : list string
}.
End FieldErrors.

(** The two string fields of [todoSchema]:
    [z.string().trim().min(1, ..).max(200, ..)] and
    [z.string().max(1000, ..).optional()]. *)
Definition todoSchema_title : list Zod.check :=
  [Zod.Trim;
   Zod.Min 1 "Title is required";
   Zod.Max 200 "Title must be less than 200 characters"].

Definition todoSchema_description : list Zod.check :=
  [Zod.Max 1000 "Description must be less than 1000 characters"].

(** [todoSchema.safeParse(value)]: the parsed data, or the field errors.
    The value has the shape of the arguments of [createTodo]. *)
Definition todoSchema_safeParse (measure : jsstring → nat)
    (value : CreateArgs.t) : FieldErrors.t + CreateArgs.t :=
  let title := Zod.run measure todoSchema_title (CreateArgs.title value) in
  let description_issues :=
    match CreateArgs.description value with
    | Some description =>
        (Zod.run measure todoSchema_description description).2
    | None => []
    end in
  match title.2, description_issues with
  | [], [] =>
      inr (CreateArgs.mk title.1 (CreateArgs.description value)
             (CreateArgs.completed value))
  | _, _ => inl (FieldErrors.mk title.2 description_issues)
  end.

(** What the form holds: [description] is a string, the empty one until
    the user types. *)
Module FormValue.
Record t := mk {
  title : jsstring;
  description : jsstring;
  completed : bool
}.
Definition defaultValues : t := mk [] [] false.
Definition to_schema (value : t) : CreateArgs.t :=
  CreateArgs.mk (title value) (Some (description value)) (completed value).
End FormValue.

(** [validators.onChange] of the form: the field errors, or [undefined]. *)
Definition form_onChange (measure : jsstring → nat) (value : FormValue.t)
    : option FieldErrors.t :=
  match todoSchema_safeParse measure (FormValue.to_schema value) with
  | inl fieldErrors => Some fieldErrors
  | inr _ => None
  end.

(** [validators.onChange] of the field [title]. *)
Definition title_onChange (value : jsstring) : option string :=
  if negb (JsString.truthy value)
     || (length (JsString.trim value) =? 0)%nat
  then Some "Title is required"%string
  else if (200 <? length value)%nat
  then Some "Title must be less than 200 characters"%string
  else None.

(** [validators.onChange] of the field [description]. *)
Definition description_onChange (value : jsstring) : option string :=
  if JsString.truthy value && (1000 <? length value)%nat
  then Some "Description must be less than 1000 characters"%string
  else None.

(** What [onSubmit] throws: the [ZodError] of [todoSchema.parse], or the
    error of the mutation, logged and thrown again. *)
Inductive SubmitError :=
| ZodError (fieldErrors : FieldErrors.t)
| MutationError (msg : string).

(** [onSubmit]: parse the value, then call the [createTodo] mutation with
    the parsed data.  Resetting the form and invalidating the list query
    afterwards do not touch the store and are left out. *)
Definition onSubmit (measure : jsstring → nat) (value : FormValue.t)
    (db : Db.t) : Db.t * (SubmitError + unit) :=
  match todoSchema_safeParse measure (FormValue.to_schema value) with
  | inl fieldErrors => (db, inl (ZodError fieldErrors))
  | inr validatedData =>
      match createTodo
              (CreateArgs.mk (CreateArgs.title validatedData)
                 (CreateArgs.description validatedData)
                 (CreateArgs.completed validatedData)) db with
      | (db', inl msg) => (db', inl (MutationError msg))
      | (db', inr _) => (db', inr ())
      end
  end.

(** ** The code of [CONVEX_TANSTACK_GUIDE.md] *)

Module Guide.

(** [createTodo] as the guide gives it: the first guard of the deployed
    handler and no other. *)
Definition createTodo (args : CreateArgs.t) : Tx Todo.t :=
  if negb (JsString.truthy (CreateArgs.title args))
     || (length (JsString.trim (CreateArgs.title args)) =? 0)%nat
  then throw "Title is required"
  else
    let* todoId :=
      db_insert (JsString.trim (CreateArgs.title args))
        (JsString.trim <$> CreateArgs.description args)
        (CreateArgs.completed args) in
    let* createdTodo := db_get todoId in
    match createdTodo with
    | None => throw "Failed to create todo"
    | Some createdTodo =>
        ret (Todo.mk (Todo._id createdTodo) (Todo._creationTime createdTodo)
               (Todo.title createdTodo) (Todo.description createdTodo)
               (Todo.completed createdTodo))
    end.

(** [updateTodo] as the guide gives it: no guard on the fields. *)
Definition updateTodo (args : UpdateArgs.t) : Tx Todo.t :=
  let* existingTodo := db_get (UpdateArgs.todoId args) in
  match existingTodo with
  | None => throw "Todo not found"
  | Some _ =>
    let updateData := Patch.empty in
    let updateData :=
      match UpdateArgs.title args with
      | Some title =>
          Patch.mk (Some (JsString.trim title))
            (Patch.description updateData) (Patch.completed updateData)
      | None => updateData
      end in
    let updateData :=
      match UpdateArgs.description args with
      | Some description =>
          Patch.mk (Patch.title updateData)
            (Some (JsString.trim <$> Some description))
            (Patch.completed updateData)
      | None => updateData
      end in
    let updateData :=
      match UpdateArgs.completed args with
      | Some completed =>
          Patch.mk (Patch.title updateData)
            (Patch.description updateData) (Some completed)
      | None => updateData
      end in
    let* _ := db_patch (UpdateArgs.todoId args) updateData in
    let* updatedTodo := db_get (UpdateArgs.todoId args) in
    match updatedTodo with
    | None => throw "Failed to update todo"
    | Some updatedTodo =>
        ret (Todo.mk (Todo._id updatedTodo) (Todo._creationTime updatedTodo)
               (Todo.title updatedTodo) (Todo.description updatedTodo)
               (Todo.completed updatedTodo))
    end
  end.

(** The updater [handleToggle] hands to [queryClient.setQueryData] for the
    cached result of [listTodos({})]: no cache stays no cache, and in a
    cached list the todo with the toggled id has its flag negated. *)
Definition optimistic_toggle (todo_id : N) (oldTodos : option (list Todo.t))
    : option (list Todo.t) :=
  match oldTodos with
  | None => None
  | Some oldTodos =>
      Some ((λ t,
               if decide (Todo._id t = todo_id)
               then Todo.mk (Todo._id t) (Todo._creationTime t)
                      (Todo.title t) (Todo.description t)
                      (negb (Todo.completed t))
               else t) <$> oldTodos)
  end.

(** [FilteredTodoList]: the filter the user picks, and the arguments the
    component passes to [listTodos] for it. *)
Inductive Filter := FilterAll | FilterCompleted | FilterPending.

#[global] Instance Filter_eq_dec : EqDecision Filter.
Proof. solve_decision. Defined.

Definition filtered_query (filter : Filter) : ListArgs.t :=
  ListArgs.mk
    (if decide (filter = FilterAll) then None
     else Some (bool_decide (filter = FilterCompleted)))
    None.

(** [array.slice(start, end)] for indices that are whole numbers from 0. *)
Definition slice {A} (start end_ : nat) (l : list A) : list A :=
  take (end_ - start) (drop start l).

Definition pageSize : nat := 10.

(** [PaginatedTodoList]: the query it issues, the slice it shows for a
    page, and the number of pages it offers.  [Math.ceil] of the quotient
    of two whole numbers is the quotient rounded up. *)
Definition paginated_query : ListArgs.t := ListArgs.mk None (Some pageSize).

Definition paginatedTodos (page : nat) (todos : list Todo.t) : list Todo.t :=
  slice (page * pageSize) ((page + 1) * pageSize) todos.

Definition totalPages (todos : list Todo.t) : nat :=
  ((length todos + (pageSize - 1)) / pageSize)%nat.

End Guide.

Section trim_facts.
Import JsString.
Implicit Types s : jsstring.

Lemma trimStart_length s : (length (trimStart s) <= length s)%nat.
Proof.
  induction s as [|c s IH]; simpl; [lia|].
  destruct (is_white_space c); simpl; lia.
Qed.

Lemma trimStart_head s c s' :
  trimStart s = c :: s' → is_white_space c = false.
Proof.
  induction s as [|d s IH]; simpl; [done|].
  destruct (is_white_space d) eqn:Hd; [done|].
  intros [= <- <-]. done.
Qed.

Lemma trimStart_fixed c s :
  is_white_space c = false → trimStart (c :: s) = c :: s.
Proof. intros H. simpl. by rewrite H. Qed.

Lemma trimStart_idemp s : trimStart (trimStart s) = trimStart s.
Proof.
  destruct (trimStart s) as [|c s'] eqn:E; [done|].
  apply trimStart_fixed. eapply trimStart_head, E.
Qed.

Lemma trimStart_app s1 s2 :
  trimStart (s1 ++ s2) =
    match trimStart s1 with
    | [] => trimStart s2
    | u => u ++ s2
    end.
Proof.
  induction s1 as [|c s1 IH]; simpl; [done|].
  destruct (is_white_space c); done.
Qed.

Lemma trimEnd_length s : (length (trimEnd s) <= length s)%nat.
Proof.
  unfold trimEnd. rewrite length_reverse.
  etrans; [apply trimStart_length|]. by rewrite length_reverse.
Qed.

Lemma trimEnd_idemp s : trimEnd (trimEnd s) = trimEnd s.
Proof.
  unfold trimEnd. by rewrite reverse_involutive, trimStart_idemp.
Qed.

(** Trailing white space is removed from the back: the first code unit
    survives as soon as anything after it does, or it is not white space. *)
Lemma trimEnd_cons c s :
  trimEnd (c :: s) =
    match trimEnd s with
    | [] => if is_white_space c then [] else [c]
    | u => c :: u
    end.
Proof.
  unfold trimEnd. rewrite reverse_cons, trimStart_app.
  destruct (trimStart (reverse s)) as [|d r] eqn:E.
  - simpl. destruct (is_white_space c); done.
  - rewrite reverse_app. simpl.
    destruct (reverse (d :: r)) as [|e r'] eqn:E'; [|done].
    apply (f_equal length) in E'. rewrite length_reverse in E'. done.
Qed.

Lemma trimEnd_head c s :
  is_white_space c = false → ∃ u, trimEnd (c :: s) = c :: u.
Proof.
  intros H. rewrite trimEnd_cons, H. destruct (trimEnd s); eauto.
Qed.

Lemma trim_length s : (length (trim s) <= length s)%nat.
Proof.
  unfold trim. etrans; [apply trimEnd_length|apply trimStart_length].
Qed.

Lemma trimStart_trim s : trimStart (trim s) = trim s.
Proof.
  unfold trim. destruct (trimStart s) as [|c r] eqn:E; [done|].
  apply trimStart_head in E.
  destruct (trimEnd_head c r E) as [u ->]. by apply trimStart_fixed.
Qed.

(** Trimming a trimmed string changes nothing. *)
Lemma trim_idemp s : trim (trim s) = trim s.
Proof.
  unfold trim at 1. rewrite trimStart_trim. unfold trim.
  apply trimEnd_idemp.
Qed.

Lemma trim_nil : trim [] = [].
Proof. reflexivity. Qed.

Lemma trim_white_space s :
  Forall (λ c, is_white_space c = true) s → trim s = [].
Proof.
  intros H. unfold trim.
  assert (trimStart s = []) as ->; [|done].
  induction H as [|c s Hc _ IH]; simpl; [done|]. by rewrite Hc.
Qed.

Lemma trim_nonempty_length s : trim s ≠ [] → (1 <= length s)%nat.
Proof. destruct s; [done|simpl; lia]. Qed.

End trim_facts.

(** ** The handlers, evaluated *)

Section handlers.
Import JsString.
Implicit Types (db : Db.t) (id : N) (r : Row.t).

(** The first guard of [createTodo] fires exactly on a title that is
    empty after trimming: the empty string is falsy, and trims to itself. *)
Lemma title_required_guard (title : jsstring) :
  negb (truthy title) || (length (trim title) =? 0)%nat = true
  ↔ trim title = [].
Proof.
  rewrite orb_true_iff, Nat.eqb_eq, length_zero_iff_nil.
  split; [|auto]. intros [H|H]; [|done]. by destruct title.
Qed.

Lemma title_empty_guard (title : jsstring) :
  (length (trim title) =? 0)%nat = true ↔ trim title = [].
Proof. by rewrite Nat.eqb_eq, length_zero_iff_nil. Qed.

(** The description guard fires exactly on more than 1000 code units. *)
Lemma description_guard (d : jsstring) :
  truthy d && (1000 <? length d)%nat = true ↔ (1000 < length d)%nat.
Proof.
  rewrite andb_true_iff, Nat.ltb_lt. split; [tauto|].
  intros H. split; [|done]. destruct d; [simpl in H; lia|done].
Qed.

Lemma doc_of_fields id r :
  Todo.mk (Todo._id (doc_of id r)) (Todo._creationTime (doc_of id r))
    (Todo.title (doc_of id r)) (Todo.description (doc_of id r))
    (Todo.completed (doc_of id r)) = doc_of id r.
Proof. reflexivity. Qed.

Lemma db_eta db : Db.mk (Db.todos db) (Db.next_id db) (Db.clock db) = db.
Proof. by destruct db. Qed.

(** [createTodo] on arguments that pass the three guards. *)
Lemma createTodo_accepts (args : CreateArgs.t) db :
  trim (CreateArgs.title args) ≠ [] →
  (length (CreateArgs.title args) <= 200)%nat →
  (∀ d, CreateArgs.description args = Some d → (length d <= 1000)%nat) →
  let row := Row.mk (Db.clock db) (trim (CreateArgs.title args))
               (trim <$> CreateArgs.description args)
               (CreateArgs.completed args) in
  createTodo args db =
    (Db.mk (<[Db.next_id db := row]> (Db.todos db))
       (Db.next_id db + 1) (Db.clock db + 1),
     inr (doc_of (Db.next_id db) row)).
Proof.
  intros Ht Hl Hd row. unfold createTodo.
  destruct (negb _ || _) eqn:E1; [by apply title_required_guard in E1|].
  destruct (200 <? _)%nat eqn:E2; [apply Nat.ltb_lt in E2; lia|].
  destruct (CreateArgs.description args) as [d|] eqn:E3.
  - destruct (truthy d && _) eqn:E4.
    { apply description_guard in E4. specialize (Hd d eq_refl). lia. }
    unfold bind, db_insert, db_get, ret. simpl.
    by rewrite lookup_insert_eq.
  - unfold bind, db_insert, db_get, ret. simpl.
    by rewrite lookup_insert_eq.
Qed.

(** [createTodo] on a title that one of the two title guards refuses. *)
Lemma createTodo_title_required (args : CreateArgs.t) db :
  trim (CreateArgs.title args) = [] →
  createTodo args db = (db, inl "Title is required"%string).
Proof.
  intros H. unfold createTodo.
  by rewrite (proj2 (title_required_guard _) H).
Qed.

Lemma createTodo_title_too_long (args : CreateArgs.t) db :
  trim (CreateArgs.title args) ≠ [] →
  (200 < length (CreateArgs.title args))%nat →
  createTodo args db =
    (db, inl "Title must be less than 200 characters"%string).
Proof.
  intros Ht Hl. unfold createTodo.
  destruct (negb _ || _) eqn:E1; [by apply title_required_guard in E1|].
  by rewrite (proj2 (Nat.ltb_lt _ _) Hl).
Qed.

Lemma createTodo_description_too_long (args : CreateArgs.t) db d :
  trim (CreateArgs.title args) ≠ [] →
  (length (CreateArgs.title args) <= 200)%nat →
  CreateArgs.description args = Some d → (1000 < length d)%nat →
  createTodo args db =
    (db, inl "Description must be less than 1000 characters"%string).
Proof.
  intros Ht Hl Hd Hdl. unfold createTodo.
  destruct (negb _ || _) eqn:E1; [by apply title_required_guard in E1|].
  destruct (200 <? _)%nat eqn:E2; [apply Nat.ltb_lt in E2; lia|].
  by rewrite Hd, (proj2 (description_guard d) Hdl).
Qed.

(** Whatever [createTodo] throws, the store is as it was. *)
Lemma createTodo_throws_unchanged (args : CreateArgs.t) db db' msg :
  createTodo args db = (db', inl msg) → db' = db.
Proof.
  unfold createTodo.
  destruct (negb _ || _); [by intros [= <- _]|].
  destruct (200 <? _)%nat; [by intros [= <- _]|].
  destruct (match CreateArgs.description args with
            | Some d => _ | None => _ end); [by intros [= <- _]|].
  unfold bind, db_insert, db_get, ret. simpl.
  by rewrite lookup_insert_eq.
Qed.

Lemma getTodo_eval id db :
  getTodo id db = (db, inr (doc_of id <$> Db.todos db !! id)).
Proof. reflexivity. Qed.

Lemma deleteTodo_missing id db :
  Db.todos db !! id = None →
  deleteTodo id db = (db, inl "Todo not found"%string).
Proof.
  intros H. unfold deleteTodo, bind, db_get. simpl. by rewrite H.
Qed.

Lemma deleteTodo_present id db r :
  Db.todos db !! id = Some r →
  deleteTodo id db =
    (Db.mk (delete id (Db.todos db)) (Db.next_id db) (Db.clock db), inr ()).
Proof.
  intros H. unfold deleteTodo, bind, db_get, db_delete, ret. simpl.
  rewrite H. simpl. by rewrite H.
Qed.

Lemma toggleTodoCompleted_missing id db :
  Db.todos db !! id = None →
  toggleTodoCompleted id db = (db, inl "Todo not found"%string).
Proof.
  intros H. unfold toggleTodoCompleted, bind, db_get. simpl. by rewrite H.
Qed.

Lemma toggleTodoCompleted_present id db r :
  Db.todos db !! id = Some r →
  let r' := Row.mk (Row.creationTime r) (Row.title r) (Row.description r)
              (negb (Row.completed r)) in
  toggleTodoCompleted id db =
    (Db.mk (<[id := r']> (Db.todos db)) (Db.next_id db) (Db.clock db),
     inr (doc_of id r')).
Proof.
  intros H r'.
  unfold toggleTodoCompleted, bind, db_get, db_patch, ret. simpl.
  rewrite H. simpl. rewrite H. simpl. by rewrite lookup_insert_eq.
Qed.

Lemma updateTodo_missing (args : UpdateArgs.t) db :
  Db.todos db !! UpdateArgs.todoId args = None →
  updateTodo args db = (db, inl "Todo not found"%string).
Proof.
  intros H. unfold updateTodo, bind, db_get. simpl. by rewrite H.
Qed.

Lemma updateTodo_accepts (args : UpdateArgs.t) db r :
  Db.todos db !! UpdateArgs.todoId args = Some r →
  (∀ t, UpdateArgs.title args = Some t →
     trim t ≠ [] ∧ (length t <= 200)%nat) →
  (∀ d, UpdateArgs.description args = Some d → (length d <= 1000)%nat) →
  updateTodo args db =
    (Db.mk (<[UpdateArgs.todoId args := updated_row args r]> (Db.todos db))
       (Db.next_id db) (Db.clock db),
     inr (doc_of (UpdateArgs.todoId args) (updated_row args r))).
Proof.
  intros H Ht Hd. unfold updateTodo, updated_row.
  destruct args as [id ot od oc]; simpl in *.
  unfold bind at 1. unfold db_get at 1. simpl. rewrite H. simpl.
  assert (∀ t, ot = Some t →
            (length (trim t) =? 0)%nat = false ∧ (200 <? length t)%nat = false)
    as Ht'.
  { intros t E. destruct (Ht t E) as [? ?]. split.
    - apply not_true_iff_false. by rewrite title_empty_guard.
    - apply Nat.ltb_ge. lia. }
  assert (∀ d, od = Some d → truthy d && (1000 <? length d)%nat = false)
    as Hd'.
  { intros d E. apply not_true_iff_false. rewrite description_guard.
    specialize (Hd d E). lia. }
  destruct ot as [t|]; [destruct (Ht' t eq_refl) as [-> ->]|];
    (destruct od as [d|]; [rewrite (Hd' d eq_refl)|]);
    destruct oc as [c|];
    unfold bind, db_get, db_patch, ret; simpl; rewrite H; simpl;
    by rewrite lookup_insert_eq.
Qed.

Lemma updateTodo_title_empty (args : UpdateArgs.t) db r t :
  Db.todos db !! UpdateArgs.todoId args = Some r →
  UpdateArgs.title args = Some t → trim t = [] →
  updateTodo args db = (db, inl "Title cannot be empty"%string).
Proof.
  intros H Ht He. unfold updateTodo.
  unfold bind at 1. unfold db_get at 1. simpl. rewrite H, Ht. simpl.
  unfold bind at 1. unfold bind at 1. unfold bind at 1.
  by rewrite (proj2 (title_empty_guard t) He).
Qed.

(** Whatever [updateTodo] throws, the store is as it was: every [throw]
    of the handler comes before its one write. *)
Lemma updateTodo_throws_unchanged (args : UpdateArgs.t) db db' msg :
  updateTodo args db = (db', inl msg) → db' = db.
Proof.
  unfold updateTodo. destruct args as [id ot od oc]; simpl.
  unfold bind at 1. unfold db_get at 1. simpl.
  destruct (Db.todos db !! id) as [r|] eqn:H; simpl;
    [|by intros [= <- _]].
  destruct ot as [t|];
    [destruct (length (trim t) =? 0)%nat;
       [by intros [= <- _]|];
     destruct (200 <? length t)%nat; [by intros [= <- _]|]|];
    (destruct od as [d|];
       [destruct (truthy d && (1000 <? length d)%nat);
          [by intros [= <- _]|]|]);
    destruct oc as [c|];
    unfold bind, db_get, db_patch, ret; simpl; rewrite H; simpl;
    by rewrite lookup_insert_eq.
Qed.

End handlers.

(** ** One call, seen from the store *)

Section steps.
Import JsString.
Implicit Types (db : Db.t) (id : N) (r : Row.t) (c : Call).

Lemma trimmed_title_ok (title : jsstring) :
  trim title ≠ [] → (length title <= 200)%nat → title_ok (trim title).
Proof.
  intros Ht Hl. split; [by rewrite trim_idemp|].
  pose proof (trim_length title). lia.
Qed.

(** [createTodo] returns only after its three guards let it through. *)
Lemma createTodo_returns (args : CreateArgs.t) db db' d :
  createTodo args db = (db', inr d) →
  trim (CreateArgs.title args) ≠ []
  ∧ (length (CreateArgs.title args) <= 200)%nat
  ∧ (∀ x, CreateArgs.description args = Some x → (length x <= 1000)%nat).
Proof.
  unfold createTodo.
  destruct (negb _ || _) eqn:E1; [done|].
  destruct (200 <? _)%nat eqn:E2; [done|].
  destruct (CreateArgs.description args) as [x|] eqn:E3.
  - destruct (truthy x && _) eqn:E4; [done|]. intros _.
    apply not_true_iff_false in E1, E4.
    rewrite title_required_guard in E1. rewrite description_guard in E4.
    apply Nat.ltb_ge in E2. split_and!; [done|lia|].
    intros ? [= <-]. lia.
  - intros _. apply not_true_iff_false in E1.
    rewrite title_required_guard in E1.
    apply Nat.ltb_ge in E2. split_and!; [done|lia|done].
Qed.

(** [updateTodo] returns only for a stored id and supplied fields that
    pass their guards. *)
Lemma updateTodo_returns (args : UpdateArgs.t) db db' d :
  updateTodo args db = (db', inr d) →
  ∃ r, Db.todos db !! UpdateArgs.todoId args = Some r
  ∧ (∀ t, UpdateArgs.title args = Some t →
       trim t ≠ [] ∧ (length t <= 200)%nat)
  ∧ (∀ x, UpdateArgs.description args = Some x → (length x <= 1000)%nat).
Proof.
  unfold updateTodo. destruct args as [id ot od oc]; simpl.
  unfold bind at 1. unfold db_get at 1. simpl.
  destruct (Db.todos db !! id) as [r|] eqn:H; simpl; [|done].
  intros E. exists r. split; [done|]. split.
  - intros t ->. revert E. unfold bind at 4.
    destruct (length (trim t) =? 0)%nat eqn:E1;
      [unfold bind, throw; simpl; done|].
    destruct (200 <? length t)%nat eqn:E2;
      [unfold bind, throw; simpl; done|].
    intros _. apply not_true_iff_false in E1.
    rewrite title_empty_guard in E1. apply Nat.ltb_ge in E2. done.
  - intros x ->. revert E.
    destruct (truthy x && (1000 <? length x)%nat) eqn:E4.
    + destruct ot as [t|];
        [destruct (length (trim t) =? 0)%nat; [done|];
         destruct (200 <? length t)%nat; [done|]|];
        unfold bind, throw, ret; simpl; done.
    + intros _. apply not_true_iff_false in E4.
      rewrite description_guard in E4. lia.
Qed.

Lemma updated_row_title (args : UpdateArgs.t) r :
  (∀ t, UpdateArgs.title args = Some t →
     trim t ≠ [] ∧ (length t <= 200)%nat) →
  Row.title (updated_row args r) = Row.title r
  ∨ title_ok (Row.title (updated_row args r)).
Proof.
  intros Ht. unfold updated_row. simpl.
  destruct (UpdateArgs.title args) as [t|]; [|by left].
  right. destruct (Ht t eq_refl). by apply trimmed_title_ok.
Qed.

(** Every call is one step of the store. *)
Lemma exec_step c db : store_step db (exec c db).
Proof.
  destruct c as [args|args|id|id]; simpl.
  - destruct (createTodo args db) as [db' [msg|d]] eqn:E; simpl.
    + apply createTodo_throws_unchanged in E as ->. constructor.
    + destruct (createTodo_returns _ _ _ _ E) as (Ht & Hl & Hd).
      rewrite createTodo_accepts in E by done. injection E as <- _.
      apply step_insert. by apply trimmed_title_ok.
  - destruct (updateTodo args db) as [db' [msg|d]] eqn:E; simpl.
    + apply updateTodo_throws_unchanged in E as ->. constructor.
    + destruct (updateTodo_returns _ _ _ _ E) as (r & Hr & Ht & Hd).
      rewrite (updateTodo_accepts _ _ r) in E by done. injection E as <- _.
      eapply step_replace; [done|done|by apply updated_row_title].
  - destruct (Db.todos db !! id) as [r|] eqn:H.
    + rewrite (deleteTodo_present _ _ r) by done. apply step_delete.
    + rewrite deleteTodo_missing by done. constructor.
  - destruct (Db.todos db !! id) as [r|] eqn:H.
    + rewrite (toggleTodoCompleted_present _ _ r) by done. simpl.
      eapply step_replace; [done|done|by left].
    + rewrite toggleTodoCompleted_missing by done. constructor.
Qed.

Lemma db_wf_empty : db_wf Db.empty.
Proof. split; intros *; simpl; by rewrite lookup_empty. Qed.

Lemma store_step_wf db db' : store_step db db' → db_wf db → db_wf db'.
Proof.
  intros Hs [Hb Hi]. destruct Hs as [|t d c _|id r r' Hr Hc _|id]; simpl.
  - done.
  - split; simpl.
    + intros i r [[<- <-]|[? Hl]]%lookup_insert_Some; simpl; [lia|].
      destruct (Hb _ _ Hl). lia.
    + intros i j r r' [[<- <-]|[? Hl]]%lookup_insert_Some
        [[<- <-]|[? Hl']]%lookup_insert_Some; simpl; intros E; try done.
      * destruct (Hb _ _ Hl'). lia.
      * destruct (Hb _ _ Hl). lia.
      * eauto.
  - split; simpl.
    + intros i x [[<- <-]|[? Hl]]%lookup_insert_Some; [|eauto].
      rewrite Hc. eauto.
    + intros i j x x' [[<- <-]|[? Hl]]%lookup_insert_Some
        [[<- <-]|[? Hl']]%lookup_insert_Some; try done.
      * rewrite Hc. eauto.
      * rewrite Hc. eauto.
      * eauto.
  - split; simpl.
    + intros i x [? Hl]%lookup_delete_Some. eauto.
    + intros i j x x' [? Hl]%lookup_delete_Some [? Hl']%lookup_delete_Some.
      eauto.
Qed.

Lemma reachable_wf db : reachable db → db_wf db.
Proof.
  induction 1 as [|c db _ IH]; [apply db_wf_empty|].
  eapply store_step_wf; [apply exec_step|done].
Qed.

Lemma reachable_run (cs : list Call) db :
  reachable db → reachable (run cs db).
Proof.
  revert db. induction cs as [|c cs IH]; intros db H; simpl; [done|].
  apply IH. by constructor.
Qed.

Lemma titles_ok_empty : titles_ok Db.empty.
Proof. intros i r. simpl. by rewrite lookup_empty. Qed.

Lemma store_step_titles_ok db db' :
  store_step db db' → titles_ok db → titles_ok db'.
Proof.
  intros Hs Hok.
  destruct Hs as [|t d c Ht|id r r' Hr _ Ht|id]; unfold titles_ok; simpl.
  - done.
  - intros i x [[<- <-]|[? Hl]]%lookup_insert_Some; simpl; [done|].
    by eapply Hok.
  - intros i x [[<- <-]|[? Hl]]%lookup_insert_Some; [|by eapply Hok].
    destruct Ht as [->|?]; [by eapply Hok|done].
  - intros i x [? Hl]%lookup_delete_Some. by eapply Hok.
Qed.

(** An id the store has issued and that is no longer in the table never
    comes back. *)
Lemma store_step_gone db db' id :
  store_step db db' →
  id < Db.next_id db → Db.todos db !! id = None →
  id < Db.next_id db' ∧ Db.todos db' !! id = None.
Proof.
  intros Hs Hlt Hn. destruct Hs as [|t d c _|j r r' Hr _ _|j]; simpl.
  - done.
  - split; [lia|]. rewrite lookup_insert_ne; [done|lia].
  - split; [done|]. rewrite lookup_insert_ne; [done|]. congruence.
  - split; [done|]. rewrite lookup_delete_None. auto.
Qed.

Lemma run_gone (cs : list Call) db id :
  id < Db.next_id db → Db.todos db !! id = None →
  Db.todos (run cs db) !! id = None.
Proof.
  revert db. induction cs as [|c cs IH]; intros db Hlt Hn; simpl; [done|].
  destruct (store_step_gone _ _ id (exec_step c db) Hlt Hn).
  by apply IH.
Qed.

End steps.

(** ** Queries *)

Section queries.
Implicit Types (db : Db.t) (d x y : Todo.t) (ds : list Todo.t).

#[local] Instance newer_eq_total : Total newer_eq.
Proof. intros x y. unfold newer_eq. lia. Qed.

#[local] Instance newer_eq_trans : Transitive newer_eq.
Proof. intros x y z. unfold newer_eq. lia. Qed.

Lemma doc_of_inj i j (r r' : Row.t) : doc_of i r = doc_of j r' → i = j ∧ r = r'.
Proof.
  destruct r, r'. unfold doc_of. simpl. intros [= -> -> -> -> ->]. done.
Qed.

Lemma elem_of_db_documents db d : d ∈ db_documents db ↔ stored db d.
Proof.
  unfold db_documents, stored. rewrite list_elem_of_fmap. split.
  - intros ([i r] & -> & H%elem_of_map_to_list). simpl. eauto.
  - intros (r & H & E). exists (Todo._id d, r).
    split; [done|]. by apply elem_of_map_to_list.
Qed.

Lemma NoDup_db_documents db : NoDup (db_documents db).
Proof.
  unfold db_documents. apply NoDup_fmap_2_strong; [|apply NoDup_map_to_list].
  intros [i r] [j r'] _ _ H. simpl in H.
  by apply doc_of_inj in H as [-> ->].
Qed.

Lemma length_db_documents db :
  length (db_documents db) = size (Db.todos db).
Proof. unfold db_documents. by rewrite length_fmap, length_map_to_list. Qed.

Lemma elem_of_db_index_range ce db d :
  d ∈ db_index_range ce db
  ↔ stored db d ∧ ∀ c, ce = Some c → Todo.completed d = c.
Proof.
  destruct ce as [c|]; simpl.
  - rewrite list_elem_of_filter, elem_of_db_documents. split.
    + intros [? ?]. split; [done|]. by intros ? [= <-].
    + intros [? H]. split; [by apply H|done].
  - rewrite elem_of_db_documents. split; [|tauto].
    intros ?. split; [done|]. by intros ? [=].
Qed.

Lemma NoDup_db_index_range ce db : NoDup (db_index_range ce db).
Proof.
  destruct ce; simpl; [apply NoDup_filter|]; apply NoDup_db_documents.
Qed.

(** In a well-formed store a creation time identifies its document. *)
Lemma stored_creation_time_inj db x y :
  db_wf db → stored db x → stored db y →
  Todo._creationTime x = Todo._creationTime y → x = y.
Proof.
  intros [_ Hi] (r & Hr & ->) (r' & Hr' & ->) E. simpl in *.
  assert (Todo._id x = Todo._id y) as Hid by eauto.
  rewrite Hid in *. congruence.
Qed.

(** A list in index order without two documents of one creation time is
    in strictly descending creation order. *)
Lemma StronglySorted_newer ds :
  StronglySorted newer_eq ds → NoDup ds →
  (∀ x y, x ∈ ds → y ∈ ds →
     Todo._creationTime x = Todo._creationTime y → x = y) →
  StronglySorted newer ds.
Proof.
  induction 1 as [|x ds Hs IH Hx]; intros Hnd Hinj; [constructor|].
  apply NoDup_cons in Hnd as [Hnotin Hnd]. constructor.
  - apply IH; [done|]. intros ????. apply Hinj; by right.
  - rewrite Forall_forall in Hx |- *. intros y Hy.
    destruct (Hx y Hy) as [?|[E _]]; [done|].
    assert (y = x) as -> by (apply Hinj; [by right|by left|done]).
    done.
Qed.

Lemma db_query_desc_eval ce n db :
  db_query_desc ce n db = (db, inr (query_result ce n db)).
Proof. reflexivity. Qed.

Lemma elem_of_query_result ce n db d :
  d ∈ query_result ce n db → d ∈ db_index_range ce db.
Proof.
  intros H%subseteq_take. by rewrite merge_sort_Permutation in H.
Qed.

Lemma length_query_result ce n db :
  length (query_result ce n db) = min n (length (db_index_range ce db)).
Proof.
  unfold query_result. by rewrite length_take, merge_sort_Permutation.
Qed.

Lemma NoDup_query_result ce n db : NoDup (query_result ce n db).
Proof.
  unfold query_result. eapply sublist_NoDup; [|apply sublist_take].
  rewrite merge_sort_Permutation. apply NoDup_db_index_range.
Qed.

Lemma query_result_sorted ce n db :
  StronglySorted newer_eq (query_result ce n db).
Proof.
  unfold query_result.
  pose proof (StronglySorted_merge_sort newer_eq (db_index_range ce db)) as H.
  rewrite <-(take_drop n (merge_sort _ _)) in H.
  by apply StronglySorted_app_1_l in H.
Qed.

Lemma query_result_strict ce n db :
  db_wf db → StronglySorted newer (query_result ce n db).
Proof.
  intros Hwf. apply StronglySorted_newer.
  - apply query_result_sorted.
  - apply NoDup_query_result.
  - intros x y Hx%elem_of_query_result Hy%elem_of_query_result.
    apply elem_of_db_index_range in Hx as [Hx _], Hy as [Hy _].
    by apply stored_creation_time_inj with db.
Qed.

(** Nothing of the range is left out while there is room. *)
Lemma query_result_all ce n db :
  (length (db_index_range ce db) <= n)%nat →
  query_result ce n db ≡ₚ db_index_range ce db.
Proof.
  intros H. unfold query_result. rewrite take_ge; [apply merge_sort_Permutation|].
  by rewrite merge_sort_Permutation.
Qed.

(** What is left out is no newer than anything returned. *)
Lemma query_result_newest ce n db d x :
  d ∈ db_index_range ce db → d ∉ query_result ce n db →
  x ∈ query_result ce n db → newer_eq x d.
Proof.
  intros Hd Hnot Hx. unfold query_result in *.
  pose proof (StronglySorted_merge_sort newer_eq (db_index_range ce db)) as H.
  rewrite <-(take_drop n (merge_sort _ _)) in H.
  eapply StronglySorted_app_1_elem_of; [exact H|done|].
  rewrite <-(merge_sort_Permutation newer_eq) in Hd.
  rewrite <-(take_drop n (merge_sort _ _)) in Hd.
  apply elem_of_app in Hd as [?|?]; done.
Qed.

(** A document strictly newer than every other one of the range comes
    first. *)
Lemma query_result_head ce n db d :
  d ∈ db_index_range ce db →
  (∀ x, x ∈ db_index_range ce db → x ≠ d → newer d x) →
  head (query_result ce (S n) db) = Some d.
Proof.
  intros Hd Hnew. unfold query_result.
  pose proof (StronglySorted_merge_sort newer_eq (db_index_range ce db)) as H.
  rewrite <-(merge_sort_Permutation newer_eq) in Hd.
  assert (∀ x, x ∈ merge_sort newer_eq (db_index_range ce db) →
            x ≠ d → newer d x) as Hnew'.
  { intros x Hx. apply Hnew. by rewrite merge_sort_Permutation in Hx. }
  destruct (merge_sort newer_eq (db_index_range ce db)) as [|y l]; simpl.
  { by apply elem_of_nil in Hd. }
  destruct (decide (y = d)) as [->|Hne]; [done|].
  apply elem_of_cons in Hd as [->|Hd]; [done|].
  apply StronglySorted_cons in H as [Hall _].
  rewrite Forall_forall in Hall. specialize (Hall d Hd).
  specialize (Hnew' y (list_elem_of_here _ _) Hne).
  unfold newer_eq, newer in *. lia.
Qed.

End queries.

(** ** Creating a todo *)

Section create.
Import JsString.
Implicit Types (db : Db.t) (args : CreateArgs.t).

(** The document an accepted [createTodo] inserts is newer than every
    other document of the table. *)
Lemma created_is_newest db (row : Row.t) x :
  db_wf db → Row.creationTime row = Db.clock db →
  stored
    (Db.mk (<[Db.next_id db := row]> (Db.todos db))
       (Db.next_id db + 1) (Db.clock db + 1)) x →
  x ≠ doc_of (Db.next_id db) row →
  stored db x ∧ newer (doc_of (Db.next_id db) row) x.
Proof.
  intros [Hb _] Hc (r & Hr & Hx) Hne. simpl in Hr.
  apply lookup_insert_Some in Hr as [[Hid <-]|[Hid Hr]].
  - rewrite <-Hid in Hx. done.
  - split; [by exists r|]. unfold newer. rewrite Hx. simpl.
    destruct (Hb _ _ Hr). lia.
Qed.

Lemma head_cons {A} (l : list A) a : head l = Some a → l = a :: tail l.
Proof. destruct l; simpl; congruence. Qed.

(** C1, as the code has it: for every title that is not empty after
    trimming and whose length before trimming is at most 200, and every
    description that is absent or whose length before trimming is at most
    1000, [createTodo] returns a document whose title and description are
    the trimmed inputs and whose completed flag is the one supplied; its
    id is not in use in the store before the call, its creation time is
    later than that of every document stored before, and it is what the
    store holds under that id afterwards, the other documents being as
    they were. *)
Theorem createTodo_succeeds args db :
  reachable db →
  trim (CreateArgs.title args) ≠ [] →
  (length (CreateArgs.title args) <= 200)%nat →
  (∀ d, CreateArgs.description args = Some d → (length d <= 1000)%nat) →
  ∃ db' doc,
    createTodo args db = (db', inr doc)
    ∧ Todo.title doc = trim (CreateArgs.title args)
    ∧ Todo.description doc = trim <$> CreateArgs.description args
    ∧ Todo.completed doc = CreateArgs.completed args
    ∧ Db.todos db !! Todo._id doc = None
    ∧ (∀ d, stored db d → Todo._id d ≠ Todo._id doc ∧ newer doc d)
    ∧ getTodo (Todo._id doc) db' = (db', inr (Some doc))
    ∧ (∀ i, i ≠ Todo._id doc → Db.todos db' !! i = Db.todos db !! i).
Proof.
  intros Hr Ht Hl Hd. pose proof (reachable_wf _ Hr) as [Hb Hi].
  eexists _, _. split; [by apply createTodo_accepts|]. simpl.
  assert (Db.todos db !! Db.next_id db = None) as Hfresh.
  { destruct (Db.todos db !! Db.next_id db) as [r|] eqn:E; [|done].
    destruct (Hb _ _ E). lia. }
  split_and!; try done.
  - intros d (r & Hlook & ->). simpl. destruct (Hb _ _ Hlook).
    split; [lia|]. unfold newer. simpl. lia.
  - rewrite getTodo_eval. simpl. by rewrite lookup_insert_eq.
  - intros i Hne. by rewrite lookup_insert_ne.
Qed.

Lemma createTodo_succeeds_witness :
  ∃ db' doc,
    createTodo (CreateArgs.mk (of_string "  Buy milk ") None false) Db.empty
      = (db', inr doc)
    ∧ Todo.title doc = of_string "Buy milk".
Proof.
  destruct (createTodo_succeeds
              (CreateArgs.mk (of_string "  Buy milk ") None false) Db.empty)
    as (db' & doc & E & Ht & _).
  - apply reachable_empty.
  - vm_compute. discriminate.
  - vm_compute. lia.
  - intros d. simpl. discriminate.
  - exists db', doc. split; [exact E|]. rewrite Ht. reflexivity.
Defined.

(** C1 as stated fails: a title of 201 code units, one letter followed by
    200 spaces, is one code unit long after trimming and is refused; a
    description of 1001 code units, one letter followed by 1000 spaces,
    is one code unit long after trimming and is refused. *)
Lemma createTodo_trimmed_bounds_counterexample :
  ((1 <= length (trim padded_title) <= 200)%nat
   ∧ createTodo (CreateArgs.mk padded_title None false) Db.empty
     = (Db.empty, inl "Title must be less than 200 characters"%string))
  ∧ ((length (trim padded_description) <= 1000)%nat
     ∧ createTodo (CreateArgs.mk [97] (Some padded_description) false)
         Db.empty
       = (Db.empty,
          inl "Description must be less than 1000 characters"%string)).
Proof.
  split; (split; [vm_compute; lia|vm_compute; reflexivity]).
Qed.

(** C2: [createTodo] throws one of its two title errors exactly when the
    title is empty after trimming or longer than 200 code units before
    trimming, and such an error is an [InvalidInput]; so a title of white
    space only and a title of 201 code units are refused, and a title of
    200 code units that is not all white space passes the title guards
    and, with a description within bounds, is created. *)
Theorem createTodo_title_validation args db :
  ((∃ msg, (createTodo args db).2 = inl msg ∧ title_error msg)
   ↔ trim (CreateArgs.title args) = []
     ∨ (200 < length (CreateArgs.title args))%nat)
  ∧ (∀ msg, title_error msg → failure_of msg = InvalidInput)
  ∧ (Forall (λ c, is_white_space c = true) (CreateArgs.title args) →
     fails (createTodo args) db InvalidInput)
  ∧ (length (CreateArgs.title args) = 201%nat →
     fails (createTodo args) db InvalidInput)
  ∧ (length (CreateArgs.title args) = 200%nat →
     trim (CreateArgs.title args) ≠ [] →
     (¬ ∃ msg, (createTodo args db).2 = inl msg ∧ title_error msg)
     ∧ ((∀ d, CreateArgs.description args = Some d →
           (length d <= 1000)%nat) →
        ∃ doc, (createTodo args db).2 = inr doc)).
Proof.
  assert ((∃ msg, (createTodo args db).2 = inl msg ∧ title_error msg)
          ↔ trim (CreateArgs.title args) = []
            ∨ (200 < length (CreateArgs.title args))%nat) as Hiff.
  { split.
    - intros (msg & E & Hm).
      destruct (decide (trim (CreateArgs.title args) = [])) as [?|Ht];
        [by left|].
      destruct (decide (200 < length (CreateArgs.title args))%nat)
        as [?|Hl]; [by right|].
      exfalso.
      destruct (CreateArgs.description args) as [d|] eqn:Ed.
      + destruct (decide (1000 < length d)%nat) as [Hd|Hd].
        * rewrite (createTodo_description_too_long _ _ d) in E
            by (done || lia).
          simpl in E. injection E as <-. by destruct Hm.
        * rewrite createTodo_accepts in E; [done|done|lia|].
          intros x Hx. rewrite Ed in Hx. injection Hx as <-. lia.
      + rewrite createTodo_accepts in E; [done|done|lia|].
        intros x Hx. congruence.
    - intros [Ht|Hl].
      + exists "Title is required"%string.
        rewrite createTodo_title_required by done. split; [done|by left].
      + destruct (decide (trim (CreateArgs.title args) = [])) as [?|Ht].
        * exists "Title is required"%string.
          rewrite createTodo_title_required by done. split; [done|by left].
        * exists "Title must be less than 200 characters"%string.
          rewrite createTodo_title_too_long by done.
          split; [done|by right]. }
  assert (∀ msg, title_error msg → failure_of msg = InvalidInput) as Hkind.
  { by intros msg [-> | ->]. }
  assert (trim (CreateArgs.title args) = []
          ∨ (200 < length (CreateArgs.title args))%nat →
          fails (createTodo args) db InvalidInput) as Hfails.
  { intros (msg & E & Hm)%Hiff. exists msg. eauto. }
  split_and!; [done|done| | |].
  - intros Hws. apply Hfails. left. by apply trim_white_space.
  - intros Hl. apply Hfails. right. lia.
  - intros Hl Ht. split.
    + rewrite Hiff. intros [?|?]; [done|lia].
    + intros Hd. rewrite createTodo_accepts; [by eexists|done|lia|done].
Qed.

Lemma createTodo_title_validation_witness :
  fails (createTodo (CreateArgs.mk (replicate 201 97) None false)) Db.empty
    InvalidInput
  ∧ fails (createTodo (CreateArgs.mk (replicate 7 32) None false)) Db.empty
      InvalidInput
  ∧ ∃ doc,
      (createTodo (CreateArgs.mk (replicate 200 97) None true) Db.empty).2
        = inr doc.
Proof.
  split_and!.
  - destruct (createTodo_title_validation
                (CreateArgs.mk (replicate 201 97) None false) Db.empty)
      as (_ & _ & _ & H & _).
    apply H. reflexivity.
  - destruct (createTodo_title_validation
                (CreateArgs.mk (replicate 7 32) None false) Db.empty)
      as (_ & _ & H & _).
    apply H. simpl. repeat constructor.
  - destruct (createTodo_title_validation
                (CreateArgs.mk (replicate 200 97) None true) Db.empty)
      as (_ & _ & _ & _ & H).
    apply H.
    + reflexivity.
    + vm_compute. discriminate.
    + intros d. simpl. discriminate.
Defined.

End create.

(** ** Updating, deleting and toggling a todo *)

Section mutate.
Import JsString.
Implicit Types (db : Db.t) (id : N) (r : Row.t).

(** C5: [updateTodo] changes nothing when it fails.  Whatever it throws,
    the store that comes out is the store that went in, since every guard
    runs before the one write; for an id with no document it throws
    "Todo not found", a [NotFound]; for a stored id and a supplied title
    that is empty after trimming, the empty string among them, it throws
    "Title cannot be empty", an [InvalidInput], and the document under
    the id is the one that was there. *)
Theorem updateTodo_atomic (args : UpdateArgs.t) db :
  (∀ db' msg, updateTodo args db = (db', inl msg) → db' = db)
  ∧ (Db.todos db !! UpdateArgs.todoId args = None →
     updateTodo args db = (db, inl "Todo not found"%string)
     ∧ fails (updateTodo args) db NotFound)
  ∧ (∀ r t,
       Db.todos db !! UpdateArgs.todoId args = Some r →
       UpdateArgs.title args = Some t → trim t = [] →
       updateTodo args db = (db, inl "Title cannot be empty"%string)
       ∧ fails (updateTodo args) db InvalidInput
       ∧ Db.todos (updateTodo args db).1 !! UpdateArgs.todoId args = Some r).
Proof.
  split_and!.
  - intros db' msg. apply updateTodo_throws_unchanged.
  - intros H. rewrite updateTodo_missing by done. split; [done|].
    exists "Todo not found"%string. rewrite updateTodo_missing by done. done.
  - intros r t Hr Ht He.
    rewrite (updateTodo_title_empty _ _ r t) by done. split_and!; [done| |done].
    exists "Title cannot be empty"%string.
    rewrite (updateTodo_title_empty _ _ r t) by done. done.
Qed.

Lemma updateTodo_atomic_witness :
  updateTodo (UpdateArgs.mk 0 (Some []) None (Some true)) db_milk
    = (db_milk, inl "Title cannot be empty"%string)
  ∧ updateTodo (UpdateArgs.mk 7 None None (Some true)) db_milk
    = (db_milk, inl "Todo not found"%string).
Proof.
  split.
  - destruct (updateTodo_atomic
                (UpdateArgs.mk 0 (Some []) None (Some true)) db_milk)
      as (_ & _ & H).
    apply (H row_milk []); reflexivity.
  - destruct (updateTodo_atomic
                (UpdateArgs.mk 7 None None (Some true)) db_milk)
      as (_ & H & _).
    apply H. reflexivity.
Defined.

(** C6: [updateTodo] is a partial update.  For a stored id, whatever
    the arguments and whether the call returns or throws, the id still
    has a document afterwards, with the creation time it had, every
    omitted field is as it was stored, and every other document is as it
    was.  When the supplied fields pass their guards the call returns, a
    supplied title or description is stored trimmed and a supplied
    completed flag as given, and what is returned is the whole document
    as it is stored afterwards, under the same id. *)
Theorem updateTodo_partial (args : UpdateArgs.t) db r :
  Db.todos db !! UpdateArgs.todoId args = Some r →
  (∃ r',
     Db.todos (updateTodo args db).1 !! UpdateArgs.todoId args = Some r'
     ∧ Row.creationTime r' = Row.creationTime r
     ∧ (UpdateArgs.title args = None → Row.title r' = Row.title r)
     ∧ (UpdateArgs.description args = None →
        Row.description r' = Row.description r)
     ∧ (UpdateArgs.completed args = None →
        Row.completed r' = Row.completed r)
     ∧ (∀ j, j ≠ UpdateArgs.todoId args →
          Db.todos (updateTodo args db).1 !! j = Db.todos db !! j))
  ∧ ((∀ t, UpdateArgs.title args = Some t →
        trim t ≠ [] ∧ (length t <= 200)%nat) →
     (∀ d, UpdateArgs.description args = Some d →
        (length d <= 1000)%nat) →
     ∃ db' doc,
       updateTodo args db = (db', inr doc)
       ∧ Todo._id doc = UpdateArgs.todoId args
       ∧ Todo._creationTime doc = Row.creationTime r
       ∧ Todo.title doc =
           from_option trim (Row.title r) (UpdateArgs.title args)
       ∧ Todo.description doc =
           from_option (λ d, Some (trim d)) (Row.description r)
             (UpdateArgs.description args)
       ∧ Todo.completed doc =
           default (Row.completed r) (UpdateArgs.completed args)
       ∧ getTodo (UpdateArgs.todoId args) db' = (db', inr (Some doc))).
Proof.
  intros Hr. split.
  - destruct (updateTodo args db) as [db' [msg|doc]] eqn:E; simpl.
    + apply updateTodo_throws_unchanged in E as ->.
      exists r. split_and!; done.
    + destruct (updateTodo_returns _ _ _ _ E) as (r0 & Hr0 & Ht & Hd).
      rewrite (updateTodo_accepts _ _ r) in E by done.
      injection E as <- _. simpl. exists (updated_row args r).
      split_and!.
      * apply lookup_insert_eq.
      * done.
      * unfold updated_row. simpl. by intros ->.
      * unfold updated_row. simpl. by intros ->.
      * unfold updated_row. simpl. by intros ->.
      * intros j Hne. by rewrite lookup_insert_ne.
  - intros Ht Hd. eexists _, _.
    split; [by apply (updateTodo_accepts _ _ r)|]. simpl.
    split_and!; try done.
    rewrite getTodo_eval. simpl. by rewrite lookup_insert_eq.
Qed.

Lemma updateTodo_partial_witness :
  ∃ db' doc,
    updateTodo (UpdateArgs.mk 0 None None (Some true)) db_milk
      = (db', inr doc)
    ∧ Todo.title doc = of_string "Buy milk"
    ∧ Todo.description doc = Some (of_string "2 litres")
    ∧ Todo.completed doc = true.
Proof.
  destruct (updateTodo_partial (UpdateArgs.mk 0 None None (Some true))
              db_milk row_milk) as [_ H].
  - reflexivity.
  - destruct H as (db' & doc & E & _ & _ & H1 & H2 & H3 & _).
    + intros t. simpl. discriminate.
    + intros d. simpl. discriminate.
    + exists db', doc. split_and!; [exact E|exact H1|exact H2|exact H3].
Defined.

(** C7: [deleteTodo] on an id with no document throws "Todo not found", a
    [NotFound], and changes nothing.  On a stored id of a reachable store
    it removes the document and returns [null]; afterwards [getTodo] on
    that id returns [null], a second [deleteTodo] on it is a [NotFound],
    the other documents are as they were, and whatever calls follow, the
    id stays without a document. *)
Theorem deleteTodo_removes id db :
  (Db.todos db !! id = None →
   deleteTodo id db = (db, inl "Todo not found"%string)
   ∧ fails (deleteTodo id) db NotFound)
  ∧ (reachable db → is_Some (Db.todos db !! id) →
     ∃ db',
       deleteTodo id db = (db', inr ())
       ∧ getTodo id db' = (db', inr None)
       ∧ fails (deleteTodo id) db' NotFound
       ∧ (∀ j, j ≠ id → Db.todos db' !! j = Db.todos db !! j)
       ∧ ∀ cs, getTodo id (run cs db') = (run cs db', inr None)).
Proof.
  assert (∀ db0, Db.todos db0 !! id = None →
            deleteTodo id db0 = (db0, inl "Todo not found"%string)
            ∧ fails (deleteTodo id) db0 NotFound) as Hmissing.
  { intros db0 H. rewrite deleteTodo_missing by done. split; [done|].
    exists "Todo not found"%string. by rewrite deleteTodo_missing. }
  split; [apply Hmissing|].
  intros Hreach [r Hr]. eexists. split; [by apply (deleteTodo_present _ _ r)|].
  pose proof (reachable_wf _ Hreach) as [Hb _]. destruct (Hb _ _ Hr) as [Hlt _].
  split_and!.
  - rewrite getTodo_eval. simpl. by rewrite lookup_delete_eq.
  - apply Hmissing. simpl. by rewrite lookup_delete_eq.
  - intros j Hne. simpl. by rewrite lookup_delete_ne.
  - intros cs. rewrite getTodo_eval. rewrite run_gone; [done|done|].
    simpl. by rewrite lookup_delete_eq.
Qed.

Lemma deleteTodo_removes_witness :
  ∃ db',
    deleteTodo 0 db_milk = (db', inr ())
    ∧ getTodo 0 db' = (db', inr None)
    ∧ fails (deleteTodo 0) db' NotFound.
Proof.
  destruct (deleteTodo_removes 0 db_milk) as [_ H].
  destruct H as (db' & E & Hg & Hf & _).
  - apply reachable_run, reachable_empty.
  - eexists. reflexivity.
  - exists db'. split_and!; [exact E|exact Hg|exact Hf].
Defined.

(** C8: [toggleTodoCompleted] on a stored id writes the negation of the
    stored completed flag, leaves the other fields alone and returns the
    document as stored afterwards; a second call on the same id returns
    the document as it first was and leaves the store as it first was. *)
Theorem toggleTodoCompleted_involution id db r :
  Db.todos db !! id = Some r →
  ∃ db1 d1,
    toggleTodoCompleted id db = (db1, inr d1)
    ∧ d1 = Todo.mk id (Row.creationTime r) (Row.title r) (Row.description r)
             (negb (Row.completed r))
    ∧ getTodo id db1 = (db1, inr (Some d1))
    ∧ (∀ j, j ≠ id → Db.todos db1 !! j = Db.todos db !! j)
    ∧ toggleTodoCompleted id db1 = (db, inr (doc_of id r)).
Proof.
  intros Hr. eexists _, _.
  split; [by apply (toggleTodoCompleted_present _ _ r)|].
  split_and!.
  - reflexivity.
  - rewrite getTodo_eval. simpl. by rewrite lookup_insert_eq.
  - intros j Hne. simpl. by rewrite lookup_insert_ne.
  - erewrite toggleTodoCompleted_present
      by (simpl; apply lookup_insert_eq).
    simpl. rewrite negb_involutive, insert_insert_eq.
    destruct r, db; simpl in *. by rewrite insert_id.
Qed.

Lemma toggleTodoCompleted_involution_witness :
  ∃ db1 d1,
    toggleTodoCompleted 0 db_milk = (db1, inr d1)
    ∧ Todo.completed d1 = true
    ∧ toggleTodoCompleted 0 db1 = (db_milk, inr (doc_of 0 row_milk)).
Proof.
  destruct (toggleTodoCompleted_involution 0 db_milk row_milk)
    as (db1 & d1 & E & Hd1 & _ & _ & E2).
  - reflexivity.
  - exists db1, d1. split_and!; [exact E|by rewrite Hd1|exact E2].
Defined.

(** C9: the title bounds are an invariant of the store.  They hold in the
    empty store, every call ([createTodo], [updateTodo], [deleteTodo],
    [toggleTodoCompleted], returning or throwing) preserves them, and so
    in every reachable store every stored title is not empty after
    trimming and at most 200 code units long. *)
Theorem titles_ok_invariant :
  titles_ok Db.empty
  ∧ (∀ c db, titles_ok db → titles_ok (exec c db))
  ∧ (∀ db, reachable db → titles_ok db).
Proof.
  assert (∀ c db, titles_ok db → titles_ok (exec c db)) as Hstep.
  { intros c db. apply store_step_titles_ok, exec_step. }
  split_and!; [apply titles_ok_empty|done|].
  induction 1 as [|c db _ IH]; [apply titles_ok_empty|by apply Hstep].
Qed.

Lemma titles_ok_invariant_witness :
  titles_ok
    (run [CallCreate (CreateArgs.mk (of_string "  Buy milk ") None false);
          CallUpdate (UpdateArgs.mk 0 (Some (of_string " Buy bread")) None
                        None);
          CallToggle 0]
       Db.empty).
Proof.
  destruct titles_ok_invariant as (_ & _ & H).
  apply H, reachable_run, reachable_empty.
Defined.

End mutate.

(** ** Listing todos *)

Section listing.
Import JsString.
Implicit Types (db : Db.t) (d x : Todo.t) (ds : list Todo.t).

Lemma listTodos_eval (args : ListArgs.t) db :
  listTodos args db =
    (db, inr (query_result (ListArgs.completed args)
                (default 100%nat (ListArgs.limit args)) db)).
Proof. unfold listTodos. by destruct (ListArgs.completed args). Qed.

(** The documents of the index range for a flag are as many as the rows
    of the table with that flag. *)
Lemma length_db_index_range_flag (c : bool) db :
  length (db_index_range (Some c) db)
  = size (filter (λ kv : N * Row.t, Row.completed kv.2 = c) (Db.todos db)).
Proof.
  rewrite <-length_map_to_list,
    <-(length_fmap (λ kv : N * Row.t, doc_of kv.1 kv.2)).
  apply Permutation_length, NoDup_Permutation.
  - apply NoDup_db_index_range.
  - apply NoDup_fmap_2_strong; [|apply NoDup_map_to_list].
    intros [i r] [k r'] _ _ H. simpl in H.
    by apply doc_of_inj in H as [-> ->].
  - intros d. rewrite elem_of_db_index_range, list_elem_of_fmap. split.
    + intros [(r & Hr & Hd) Hc]. exists (Todo._id d, r). split; [done|].
      apply elem_of_map_to_list, map_lookup_filter_Some. split; [done|].
      simpl. specialize (Hc c eq_refl). by rewrite Hd in Hc.
    + intros ([i r] & -> & H%elem_of_map_to_list).
      apply map_lookup_filter_Some in H as [Hr Hc]. simpl in *. split.
      * by exists r.
      * by intros ? [= <-].
Qed.

(** C3: on every reachable store [listTodos] returns documents of the
    table, at most [limit] of them (100 when no limit is given), each
    created strictly after the ones that follow it, and with a completed
    filter only documents whose flag equals the filter.  A stored document
    that matches the filter, or any stored document when there is no
    filter, is left out only if the result is full, [limit] documents
    long, and everything returned is strictly newer.  So the result has
    [limit] documents or all that match: with no filter the whole table,
    with a filter every document of the table with that flag. *)
Theorem listTodos_newest_first (args : ListArgs.t) db :
  reachable db →
  ∃ ds,
    listTodos args db = (db, inr ds)
    ∧ (length ds <= default 100 (ListArgs.limit args))%nat
    ∧ StronglySorted newer ds
    ∧ (∀ d, d ∈ ds → stored db d)
    ∧ (∀ c, ListArgs.completed args = Some c →
         ∀ d, d ∈ ds → Todo.completed d = c)
    ∧ (∀ d, stored db d →
         (∀ c, ListArgs.completed args = Some c → Todo.completed d = c) →
         d ∈ ds
         ∨ (length ds = default 100%nat (ListArgs.limit args)
            ∧ ∀ x, x ∈ ds → newer x d))
    ∧ (ListArgs.completed args = None →
       length ds
       = min (default 100%nat (ListArgs.limit args)) (size (Db.todos db)))
    ∧ (∀ c, ListArgs.completed args = Some c →
         length ds
         = min (default 100%nat (ListArgs.limit args))
             (size (filter (λ kv : N * Row.t, Row.completed kv.2 = c)
                      (Db.todos db)))).
Proof.
  intros Hreach. pose proof (reachable_wf _ Hreach) as Hwf.
  eexists. split; [apply listTodos_eval|].
  set (ce := ListArgs.completed args).
  set (n := default 100%nat (ListArgs.limit args)).
  split_and!.
  - rewrite length_query_result. lia.
  - by apply query_result_strict.
  - intros d Hd%elem_of_query_result.
    by apply elem_of_db_index_range in Hd as [? _].
  - intros c Hc d Hd%elem_of_query_result.
    apply elem_of_db_index_range in Hd as [_ Hd]. by apply Hd.
  - intros d Hs Hmatch.
    destruct (decide (d ∈ query_result ce n db)) as [?|Hnot]; [by left|].
    assert (d ∈ db_index_range ce db) as Hd
      by by apply elem_of_db_index_range.
    right. split.
    { rewrite length_query_result.
      destruct (decide (length (db_index_range ce db) <= n)%nat)
        as [Hfits|?]; [|lia].
      exfalso. apply Hnot. by rewrite query_result_all. }
    intros x Hx.
    destruct (query_result_newest ce n db d x Hd Hnot Hx) as [?|[E _]];
      [done|].
    pose proof (elem_of_query_result _ _ _ _ Hx) as Hx'.
    apply elem_of_db_index_range in Hx' as [Hxs _].
    assert (d = x) as -> by by apply stored_creation_time_inj with db.
    done.
  - intros Hnone. rewrite length_query_result, Hnone.
    simpl. by rewrite length_db_documents.
  - intros c Hc. rewrite length_query_result, Hc.
    by rewrite length_db_index_range_flag.
Qed.

Lemma listTodos_newest_first_witness :
  listTodos (ListArgs.mk (Some false) (Some 2%nat)) db_three
  = (db_three,
     inr [Todo.mk 2 2 (JsString.of_string "c") None false;
          Todo.mk 0 0 (JsString.of_string "a") None false])
  ∧ StronglySorted newer
      [Todo.mk 2 2 (JsString.of_string "c") None false;
       Todo.mk 0 0 (JsString.of_string "a") None false]
  ∧ listTodos (ListArgs.mk (Some true) None) db_three
    = (db_three, inr [Todo.mk 1 1 (JsString.of_string "b") None true]).
Proof.
  destruct (listTodos_newest_first
              (ListArgs.mk (Some false) (Some 2%nat)) db_three)
    as (ds & E & _ & Hs & _).
  - apply reachable_run, reachable_empty.
  - assert (listTodos (ListArgs.mk (Some false) (Some 2%nat)) db_three
            = (db_three,
               inr [Todo.mk 2 2 (JsString.of_string "c") None false;
                    Todo.mk 0 0 (JsString.of_string "a") None false]))
      as E' by by vm_compute.
    rewrite E' in E. injection E as <-.
    split_and!; [exact E'|exact Hs|by vm_compute].
Defined.

(** C4, as the code has it: every document [listTodos] returns for the
    filter [completed: true] has its completed flag set, and when the
    table holds at most 100 documents, the default limit, each of them is
    also returned by [listTodos] without a filter on the same store. *)
Theorem listTodos_completed_subset db :
  ∃ cs all,
    listTodos (ListArgs.mk (Some true) None) db = (db, inr cs)
    ∧ listTodos (ListArgs.mk None None) db = (db, inr all)
    ∧ (∀ d, d ∈ cs → Todo.completed d = true)
    ∧ ((size (Db.todos db) <= 100)%nat → cs ⊆ all).
Proof.
  eexists _, _. split; [apply listTodos_eval|].
  split; [apply listTodos_eval|]. simpl. split.
  - intros d Hd%elem_of_query_result.
    apply elem_of_db_index_range in Hd as [_ Hd]. by apply Hd.
  - intros Hsize d Hd%elem_of_query_result.
    apply elem_of_db_index_range in Hd as [Hd _].
    rewrite query_result_all.
    + apply elem_of_db_index_range. split; [done|]. by intros ? [=].
    + simpl. by rewrite length_db_documents.
Qed.

Lemma listTodos_completed_subset_witness :
  ∃ cs all,
    listTodos (ListArgs.mk (Some true) None) db_three = (db_three, inr cs)
    ∧ listTodos (ListArgs.mk None None) db_three = (db_three, inr all)
    ∧ cs ⊆ all.
Proof.
  destruct (listTodos_completed_subset db_three)
    as (cs & all & E1 & E2 & _ & H).
  exists cs, all. split_and!; [exact E1|exact E2|].
  apply H. vm_compute. lia.
Defined.

(** C4 as stated fails: after one completed todo and then a hundred that
    are not, the completed one is the only document returned for the
    filter [completed: true], and it is not among the hundred documents
    returned without a filter. *)
Lemma listTodos_completed_subset_counterexample :
  ∃ all,
    listTodos (ListArgs.mk (Some true) None) db_crowded
      = (db_crowded, inr [doc_old])
    ∧ listTodos (ListArgs.mk None None) db_crowded = (db_crowded, inr all)
    ∧ length all = 100%nat
    ∧ ¬ [doc_old] ⊆ all.
Proof.
  eexists. split; [by vm_compute|].
  split; [apply listTodos_eval|]. split; [by vm_compute|].
  intros H. specialize (H doc_old (list_elem_of_here _ _)).
  revert H. apply (bool_decide_unpack (doc_old ∉ _)). by vm_compute.
Qed.

(** An accepted [createTodo] on a reachable store puts its document at
    the head of what [listTodos] returns without a filter. *)
Lemma createTodo_listed_first (args : CreateArgs.t) db db' doc :
  reachable db → createTodo args db = (db', inr doc) →
  ∃ ds, listTodos (ListArgs.mk None None) db' = (db', inr (doc :: ds)).
Proof.
  intros Hreach E. pose proof (reachable_wf _ Hreach) as Hwf.
  destruct (createTodo_returns _ _ _ _ E) as (Ht & Hl & Hd).
  rewrite createTodo_accepts in E by done. injection E as <- <-.
  rewrite listTodos_eval. simpl.
  eexists. f_equal. f_equal. apply head_cons, query_result_head.
  - apply elem_of_db_index_range. split; [|by intros ? [=]].
    eexists. simpl. split; [apply lookup_insert_eq|done].
  - intros x [Hx _]%elem_of_db_index_range Hne.
    by eapply created_is_newest.
Qed.

(** C10: with a title that passes the guards, [createTodo] with the empty
    string as description stores the empty string, and with the
    description absent stores no description; [getTodo] and [listTodos]
    on the store after the call return the document with the description
    as stored, so the two cases stay apart. *)
Theorem createTodo_empty_description (title : jsstring) completed db :
  reachable db → trim title ≠ [] → (length title <= 200)%nat →
  ∃ db1 d1 db2 d2,
    createTodo (CreateArgs.mk title (Some []) completed) db = (db1, inr d1)
    ∧ Todo.description d1 = Some []
    ∧ getTodo (Todo._id d1) db1 = (db1, inr (Some d1))
    ∧ (∃ ds, listTodos (ListArgs.mk None None) db1 = (db1, inr (d1 :: ds)))
    ∧ createTodo (CreateArgs.mk title None completed) db = (db2, inr d2)
    ∧ Todo.description d2 = None
    ∧ getTodo (Todo._id d2) db2 = (db2, inr (Some d2))
    ∧ (∃ ds, listTodos (ListArgs.mk None None) db2 = (db2, inr (d2 :: ds)))
    ∧ Todo.description d1 ≠ Todo.description d2.
Proof.
  intros Hreach Ht Hl.
  pose proof (createTodo_accepts
                (CreateArgs.mk title (Some []) completed) db) as E1.
  pose proof (createTodo_accepts
                (CreateArgs.mk title None completed) db) as E2.
  simpl in E1, E2. eexists _, _, _, _.
  split; [apply E1; [done|done|by intros ? [= <-]; simpl; lia]|].
  split; [done|].
  split; [rewrite getTodo_eval; simpl; by rewrite lookup_insert_eq|].
  split.
  { eapply createTodo_listed_first; [done|].
    apply E1; [done|done|by intros ? [= <-]; simpl; lia]. }
  split; [apply E2; done|]. split; [done|].
  split; [rewrite getTodo_eval; simpl; by rewrite lookup_insert_eq|].
  split; [|done].
  eapply createTodo_listed_first; [done|]. apply E2; done.
Qed.

Lemma createTodo_empty_description_witness :
  ∃ db1 d1 db2 d2,
    createTodo (CreateArgs.mk (of_string "Buy milk") (Some []) false)
      Db.empty = (db1, inr d1)
    ∧ Todo.description d1 = Some []
    ∧ createTodo (CreateArgs.mk (of_string "Buy milk") None false)
        Db.empty = (db2, inr d2)
    ∧ Todo.description d2 = None.
Proof.
  destruct (createTodo_empty_description (of_string "Buy milk") false
              Db.empty)
    as (db1 & d1 & db2 & d2 & E1 & H1 & _ & _ & E2 & H2 & _).
  - apply reachable_empty.
  - vm_compute. discriminate.
  - vm_compute. lia.
  - exists db1, d1, db2, d2. split_and!; [exact E1|exact H1|exact E2|exact H2].
Defined.

End listing.

(** ** A session *)

(** Create "Buy milk", see it first in the list, toggle it, delete it,
    and look it up again. *)
Example buy_milk_session :
  createTodo buy_milk Db.empty = (db_milk, inr (doc_of 0 row_milk))
  ∧ listTodos (ListArgs.mk None None) db_milk
    = (db_milk, inr [doc_of 0 row_milk])
  ∧ (toggleTodoCompleted 0 db_milk).2
    = inr (Todo.mk 0 0 (JsString.of_string "Buy milk")
             (Some (JsString.of_string "2 litres")) true)
  ∧ getTodo 0 (run [CallToggle 0; CallDelete 0] db_milk)
    = (run [CallToggle 0; CallDelete 0] db_milk, inr None).
Proof. by vm_compute. Qed.

(** ** Outcomes of the mutations *)

Section outcomes.
Import JsString.
Implicit Types (db : Db.t) (id : N) (r : Row.t).

(** What [createTodo] can throw. *)
Lemma createTodo_throws (args : CreateArgs.t) db db' msg :
  createTodo args db = (db', inl msg) →
  db' = db
  ∧ (msg = "Title is required"%string
     ∨ msg = "Title must be less than 200 characters"%string
     ∨ msg = "Description must be less than 1000 characters"%string).
Proof.
  intros E. split; [by eapply createTodo_throws_unchanged|]. revert E.
  unfold createTodo.
  destruct (negb _ || _); [intros [= _ <-]; auto|].
  destruct (200 <? _)%nat; [intros [= _ <-]; auto|].
  destruct (match CreateArgs.description args with
            | Some d => _ | None => _ end); [intros [= _ <-]; auto|].
  unfold bind, db_insert, db_get, ret. simpl.
  by rewrite lookup_insert_eq.
Qed.

(** What [updateTodo] can throw. *)
Lemma updateTodo_throws (args : UpdateArgs.t) db db' msg :
  updateTodo args db = (db', inl msg) →
  db' = db
  ∧ (msg = "Todo not found"%string
     ∨ msg = "Title cannot be empty"%string
     ∨ msg = "Title must be less than 200 characters"%string
     ∨ msg = "Description must be less than 1000 characters"%string).
Proof.
  intros E. split; [by eapply updateTodo_throws_unchanged|]. revert E.
  unfold updateTodo. destruct args as [id ot od oc]; simpl.
  unfold bind at 1. unfold db_get at 1. simpl.
  destruct (Db.todos db !! id) as [r|] eqn:H; simpl;
    [|intros [= _ <-]; auto].
  destruct ot as [t|];
    [destruct (length (trim t) =? 0)%nat;
       [intros [= _ <-]; auto|];
     destruct (200 <? length t)%nat; [intros [= _ <-]; auto|]|];
    (destruct od as [d|];
       [destruct (truthy d && (1000 <? length d)%nat);
          [intros [= _ <-]; auto 6|]|]);
    destruct oc as [c|];
    unfold bind, db_get, db_patch, ret; simpl; rewrite H; simpl;
    by rewrite lookup_insert_eq.
Qed.

Lemma deleteTodo_throws id db db' msg :
  deleteTodo id db = (db', inl msg) →
  db' = db ∧ msg = "Todo not found"%string.
Proof.
  destruct (Db.todos db !! id) as [r|] eqn:H.
  - by rewrite (deleteTodo_present _ _ r).
  - rewrite deleteTodo_missing by done. by intros [= <- <-].
Qed.

Lemma toggleTodoCompleted_throws id db db' msg :
  toggleTodoCompleted id db = (db', inl msg) →
  db' = db ∧ msg = "Todo not found"%string.
Proof.
  destruct (Db.todos db !! id) as [r|] eqn:H.
  - by rewrite (toggleTodoCompleted_present _ _ r).
  - rewrite toggleTodoCompleted_missing by done. by intros [= <- <-].
Qed.

(** X1: [createTodo] returns a document exactly when the title is not
    empty after trimming, the title is at most 200 code units long before
    trimming and the description is absent or at most 1000 code units
    long before trimming; the state of the store plays no part. *)
Theorem createTodo_returns_iff (args : CreateArgs.t) db :
  (∃ db' doc, createTodo args db = (db', inr doc))
  ↔ trim (CreateArgs.title args) ≠ []
    ∧ (length (CreateArgs.title args) <= 200)%nat
    ∧ (∀ d, CreateArgs.description args = Some d → (length d <= 1000)%nat).
Proof.
  split.
  - intros (db' & doc & E). by eapply createTodo_returns.
  - intros (Ht & Hl & Hd). eexists _, _. by apply createTodo_accepts.
Qed.

(** X2: with a title that passes its guards, a description of more than
    1000 code units before trimming makes [createTodo] throw "Description
    must be less than 1000 characters", an [InvalidInput], even when it is
    shorter once trimmed; a description of at most 1000 code units is
    stored trimmed, one of white space only as the empty string. *)
Theorem createTodo_description_guard (args : CreateArgs.t) db d :
  trim (CreateArgs.title args) ≠ [] →
  (length (CreateArgs.title args) <= 200)%nat →
  CreateArgs.description args = Some d →
  ((1000 < length d)%nat →
   createTodo args db
   = (db, inl "Description must be less than 1000 characters"%string)
   ∧ fails (createTodo args) db InvalidInput)
  ∧ ((length d <= 1000)%nat →
     ∃ db' doc,
       createTodo args db = (db', inr doc)
       ∧ Todo.description doc = Some (trim d)
       ∧ (Forall (λ c, is_white_space c = true) d →
          Todo.description doc = Some [])).
Proof.
  intros Ht Hl Hd. split.
  - intros Hlong.
    rewrite (createTodo_description_too_long _ _ d) by done.
    split; [done|]. exists "Description must be less than 1000 characters"%string.
    by rewrite (createTodo_description_too_long _ _ d).
  - intros Hshort. eexists _, _. split.
    + apply createTodo_accepts; [done|done|].
      intros x Hx. rewrite Hd in Hx. by injection Hx as <-.
    + simpl. rewrite Hd. simpl. split; [done|].
      intros Hws. by rewrite trim_white_space.
Qed.

Lemma createTodo_description_guard_witness :
  createTodo (CreateArgs.mk [97] (Some padded_description) false) db_milk
  = (db_milk, inl "Description must be less than 1000 characters"%string)
  ∧ ∃ db' doc,
      createTodo (CreateArgs.mk [97] (Some (replicate 1000 32)) false) db_milk
      = (db', inr doc)
      ∧ Todo.description doc = Some [].
Proof.
  split.
  - destruct (createTodo_description_guard
                (CreateArgs.mk [97] (Some padded_description) false)
                db_milk padded_description) as [H _].
    + vm_compute. discriminate.
    + vm_compute. lia.
    + reflexivity.
    + apply H. vm_compute. lia.
  - destruct (createTodo_description_guard
                (CreateArgs.mk [97] (Some (replicate 1000 32)) false)
                db_milk (replicate 1000 32)) as [_ H].
    + vm_compute. discriminate.
    + vm_compute. lia.
    + reflexivity.
    + destruct H as (db' & doc & E & _ & Hws).
      * vm_compute. lia.
      * exists db', doc. split; [exact E|]. apply Hws.
        apply Forall_replicate. reflexivity.
Defined.

(** X3: whichever mutation throws, the store is left as it was, and the
    error is one of the handler's own guards, an [InvalidInput] or a
    [NotFound]: the read-back failures "Failed to create todo" and
    "Failed to update todo" and the store's own errors never come out. *)
Theorem mutations_fail_cleanly (c : Call) db msg :
  thrown c db = Some msg →
  exec c db = db
  ∧ (failure_of msg = InvalidInput ∨ failure_of msg = NotFound).
Proof.
  destruct c as [args|args|id|id]; simpl.
  - destruct (createTodo args db) as [db' [m|d]] eqn:E; simpl; [|done].
    intros [= <-]. destruct (createTodo_throws _ _ _ _ E) as [-> Hm].
    split; [done|]. left. by destruct Hm as [->|[->| ->]].
  - destruct (updateTodo args db) as [db' [m|d]] eqn:E; simpl; [|done].
    intros [= <-]. destruct (updateTodo_throws _ _ _ _ E) as [-> Hm].
    split; [done|]. destruct Hm as [->|[->|[->| ->]]]; auto.
  - destruct (deleteTodo id db) as [db' [m|d]] eqn:E; simpl; [|done].
    intros [= <-]. destruct (deleteTodo_throws _ _ _ _ E) as [-> ->]. auto.
  - destruct (toggleTodoCompleted id db) as [db' [m|d]] eqn:E; simpl;
      [|done].
    intros [= <-].
    destruct (toggleTodoCompleted_throws _ _ _ _ E) as [-> ->]. auto.
Qed.

Lemma mutations_fail_cleanly_witness :
  exec (CallToggle 7) db_milk = db_milk
  ∧ (failure_of "Todo not found" = InvalidInput
     ∨ failure_of "Todo not found" = NotFound).
Proof.
  apply (mutations_fail_cleanly (CallToggle 7) db_milk "Todo not found").
  reflexivity.
Defined.

End outcomes.

(** ** More on updating *)

Section updating.
Import JsString.
Implicit Types (db : Db.t) (id : N) (r : Row.t).

Lemma updated_row_idemp (args : UpdateArgs.t) r :
  updated_row args (updated_row args r) = updated_row args r.
Proof.
  unfold updated_row. simpl.
  by destruct (UpdateArgs.title args), (UpdateArgs.description args),
    (UpdateArgs.completed args).
Qed.

(** X4: [updateTodo] returns a document exactly when the id has a
    document, a supplied title is not empty after trimming and at most
    200 code units long before trimming, and a supplied description is at
    most 1000 code units long before trimming. *)
Theorem updateTodo_returns_iff (args : UpdateArgs.t) db :
  (∃ db' doc, updateTodo args db = (db', inr doc))
  ↔ is_Some (Db.todos db !! UpdateArgs.todoId args)
    ∧ (∀ t, UpdateArgs.title args = Some t →
         trim t ≠ [] ∧ (length t <= 200)%nat)
    ∧ (∀ d, UpdateArgs.description args = Some d → (length d <= 1000)%nat).
Proof.
  split.
  - intros (db' & doc & E).
    destruct (updateTodo_returns _ _ _ _ E) as (r & Hr & Ht & Hd). eauto.
  - intros ([r Hr] & Ht & Hd). eexists _, _.
    by apply (updateTodo_accepts _ _ r).
Qed.

(** X5: on a stored id, a supplied title that is not empty after trimming
    but longer than 200 code units makes [updateTodo] throw "Title must be
    less than 200 characters" whatever the other fields are; with the
    title absent or within bounds, a supplied description longer than
    1000 code units makes it throw "Description must be less than 1000
    characters".  Both are [InvalidInput] and leave the store as it was. *)
Theorem updateTodo_too_long (args : UpdateArgs.t) db r :
  Db.todos db !! UpdateArgs.todoId args = Some r →
  (∀ t, UpdateArgs.title args = Some t → trim t ≠ [] →
     (200 < length t)%nat →
     updateTodo args db
     = (db, inl "Title must be less than 200 characters"%string))
  ∧ (∀ d, UpdateArgs.description args = Some d → (1000 < length d)%nat →
       (∀ t, UpdateArgs.title args = Some t →
          trim t ≠ [] ∧ (length t <= 200)%nat) →
       updateTodo args db
       = (db, inl "Description must be less than 1000 characters"%string))
  ∧ failure_of "Title must be less than 200 characters" = InvalidInput
  ∧ failure_of "Description must be less than 1000 characters"
    = InvalidInput.
Proof.
  intros Hr. split_and!; [| |done|done].
  - intros t Ht Hne Hlong.
    destruct (updateTodo args db) as [db' [msg|doc]] eqn:E.
    + destruct (updateTodo_throws _ _ _ _ E) as [-> _]. f_equal. f_equal.
      revert E. unfold updateTodo.
      unfold bind at 1. unfold db_get at 1. simpl. rewrite Hr, Ht. simpl.
      unfold bind at 1. unfold bind at 1. unfold bind at 1.
      destruct (length (trim t) =? 0)%nat eqn:E0;
        [by apply title_empty_guard in E0|].
      rewrite (proj2 (Nat.ltb_lt _ _) Hlong). by intros [= <-].
    + destruct (updateTodo_returns _ _ _ _ E) as (_ & _ & Hok & _).
      destruct (Hok t Ht). lia.
  - intros d Hd Hlong Hok.
    destruct (updateTodo args db) as [db' [msg|doc]] eqn:E.
    + destruct (updateTodo_throws _ _ _ _ E) as [-> _]. f_equal. f_equal.
      revert E. unfold updateTodo.
      unfold bind at 1. unfold db_get at 1. simpl. rewrite Hr, Hd. simpl.
      rewrite (proj2 (description_guard d) Hlong).
      destruct (UpdateArgs.title args) as [t|].
      * destruct (Hok t eq_refl) as [Hne Hl].
        destruct (length (trim t) =? 0)%nat eqn:E0;
          [by apply title_empty_guard in E0|].
        destruct (200 <? length t)%nat eqn:E1;
          [apply Nat.ltb_lt in E1; lia|].
        unfold bind, ret, throw. simpl. by intros [= <-].
      * unfold bind, ret, throw. simpl. by intros [= <-].
    + destruct (updateTodo_returns _ _ _ _ E) as (_ & _ & _ & Hdok).
      specialize (Hdok d Hd). lia.
Qed.

Lemma updateTodo_too_long_witness :
  updateTodo (UpdateArgs.mk 0 (Some (replicate 201 97)) None None) db_milk
  = (db_milk, inl "Title must be less than 200 characters"%string)
  ∧ updateTodo (UpdateArgs.mk 0 None (Some padded_description) None) db_milk
    = (db_milk, inl "Description must be less than 1000 characters"%string).
Proof.
  split.
  - destruct (updateTodo_too_long
                (UpdateArgs.mk 0 (Some (replicate 201 97)) None None)
                db_milk row_milk) as [H _].
    + reflexivity.
    + apply (H (replicate 201 97)).
      * reflexivity.
      * vm_compute. discriminate.
      * vm_compute. lia.
  - destruct (updateTodo_too_long
                (UpdateArgs.mk 0 None (Some padded_description) None)
                db_milk row_milk) as (_ & H & _).
    + reflexivity.
    + apply (H padded_description).
      * reflexivity.
      * vm_compute. lia.
      * intros t. simpl. discriminate.
Defined.

(** X6: [updateTodo] with the id alone, no field supplied, changes
    nothing in the store and returns the document as it is stored. *)
Theorem updateTodo_no_fields id db r :
  Db.todos db !! id = Some r →
  updateTodo (UpdateArgs.mk id None None None) db = (db, inr (doc_of id r)).
Proof.
  intros Hr. rewrite (updateTodo_accepts _ _ r) by done.
  unfold updated_row. simpl.
  assert (Row.mk (Row.creationTime r) (Row.title r) (Row.description r)
            (Row.completed r) = r) as -> by by destruct r.
  by rewrite insert_id, db_eta.
Qed.

Lemma updateTodo_no_fields_witness :
  updateTodo (UpdateArgs.mk 0 None None None) db_milk
  = (db_milk, inr (doc_of 0 row_milk)).
Proof. apply (updateTodo_no_fields 0 db_milk row_milk). reflexivity. Defined.

(** X7: [updateTodo] is idempotent: after an update that returned, the
    same update again returns the same document and leaves the store as
    the first one left it. *)
Theorem updateTodo_idempotent (args : UpdateArgs.t) db db' doc :
  updateTodo args db = (db', inr doc) →
  updateTodo args db' = (db', inr doc).
Proof.
  intros E. destruct (updateTodo_returns _ _ _ _ E) as (r & Hr & Ht & Hd).
  rewrite (updateTodo_accepts _ _ r) in E by done. injection E as <- <-.
  rewrite (updateTodo_accepts _ _ (updated_row args r));
    [|simpl; apply lookup_insert_eq|done|done].
  simpl. by rewrite updated_row_idemp, insert_insert_eq.
Qed.

Lemma updateTodo_idempotent_witness :
  ∃ db' doc,
    updateTodo (UpdateArgs.mk 0 (Some (of_string " Buy bread ")) None None)
      db_milk = (db', inr doc)
    ∧ updateTodo (UpdateArgs.mk 0 (Some (of_string " Buy bread ")) None None)
        db' = (db', inr doc).
Proof.
  eexists _, _. split; [by vm_compute|].
  apply (updateTodo_idempotent _ db_milk). by vm_compute.
Defined.

(** X8: [toggleTodoCompleted] on a stored id is [updateTodo] with the
    negation of the stored flag as the only supplied field: same store
    afterwards, same document returned. *)
Theorem toggleTodoCompleted_is_update id db r :
  Db.todos db !! id = Some r →
  toggleTodoCompleted id db
  = updateTodo (UpdateArgs.mk id None None (Some (negb (Row.completed r)))) db.
Proof.
  intros Hr. rewrite (toggleTodoCompleted_present _ _ r) by done.
  by rewrite (updateTodo_accepts _ _ r).
Qed.

Lemma toggleTodoCompleted_is_update_witness :
  toggleTodoCompleted 0 db_milk
  = updateTodo (UpdateArgs.mk 0 None None (Some true)) db_milk.
Proof.
  apply (toggleTodoCompleted_is_update 0 db_milk row_milk). reflexivity.
Defined.

(** X9: on a reachable store, deleting the document [createTodo] has just
    returned gives back the table as it was before the creation; the id
    counter and the clock stay advanced. *)
Theorem createTodo_deleteTodo (args : CreateArgs.t) db db1 doc :
  reachable db → createTodo args db = (db1, inr doc) →
  ∃ db2,
    deleteTodo (Todo._id doc) db1 = (db2, inr ())
    ∧ Db.todos db2 = Db.todos db
    ∧ Db.next_id db2 = Db.next_id db + 1
    ∧ Db.clock db2 = Db.clock db + 1.
Proof.
  intros Hreach E. pose proof (reachable_wf _ Hreach) as [Hb _].
  destruct (createTodo_returns _ _ _ _ E) as (Ht & Hl & Hd).
  rewrite createTodo_accepts in E by done. injection E as <- <-.
  eexists. split.
  - eapply deleteTodo_present. simpl. apply lookup_insert_eq.
  - simpl. split; [|done]. apply delete_insert_id.
    destruct (Db.todos db !! Db.next_id db) as [r|] eqn:Hr; [|done].
    destruct (Hb _ _ Hr). lia.
Qed.

Lemma createTodo_deleteTodo_witness :
  ∃ db2,
    deleteTodo 1 (run [CallCreate buy_milk] db_milk) = (db2, inr ())
    ∧ Db.todos db2 = Db.todos db_milk.
Proof.
  destruct (createTodo_deleteTodo buy_milk db_milk
              (run [CallCreate buy_milk] db_milk)
              (Todo.mk 1 1 (of_string "Buy milk")
                 (Some (of_string "2 litres")) false))
    as (db2 & E & Ht & _).
  - apply reachable_run, reachable_empty.
  - by vm_compute.
  - exists db2. split; [exact E|exact Ht].
Defined.

End updating.

(** ** What a document keeps over its life *)

Section lifetime.
Import JsString.
Implicit Types (db : Db.t) (id : N) (r : Row.t) (c : Call).

Lemma store_step_next_id db db' :
  store_step db db' → Db.next_id db ≤ Db.next_id db'.
Proof. destruct 1; simpl; lia. Qed.

(** A property of rows that every call keeps for the row under an id, as
    long as there is one, holds for that row after any number of calls. *)
Lemma run_row_invariant (P : Row.t → Prop) :
  (∀ c db id r r', db_wf db →
     Db.todos db !! id = Some r → P r →
     Db.todos (exec c db) !! id = Some r' → P r') →
  ∀ (cs : list Call) db id r r', reachable db →
    Db.todos db !! id = Some r → P r →
    Db.todos (run cs db) !! id = Some r' → P r'.
Proof.
  intros Hstep cs. induction cs as [|c cs IH]; intros db id r r' Hreach Hr HP.
  - simpl. intros Hr'. rewrite Hr in Hr'. by injection Hr' as <-.
  - simpl. intros Hr'. pose proof (reachable_wf _ Hreach) as Hwf.
    destruct (Db.todos (exec c db) !! id) as [r1|] eqn:H1.
    + apply (IH (exec c db) id r1 r'); [by constructor|done| |done].
      by apply (Hstep c db id r r1).
    + destruct Hwf as [Hb _]. destruct (Hb _ _ Hr) as [Hlt _].
      pose proof (store_step_next_id _ _ (exec_step c db)).
      rewrite run_gone in Hr'; [done|lia|done].
Qed.

Lemma store_step_creation_time db db' id r r' :
  store_step db db' → db_wf db →
  Db.todos db !! id = Some r → Db.todos db' !! id = Some r' →
  Row.creationTime r' = Row.creationTime r.
Proof.
  intros Hs [Hb _] Hr. destruct Hs as [|t d c _|j x x' Hx Hc _|j]; simpl.
  - intros Hr'. rewrite Hr in Hr'. by injection Hr' as <-.
  - intros [[<- _]|[_ Hr']]%lookup_insert_Some.
    + destruct (Hb _ _ Hr). lia.
    + rewrite Hr in Hr'. by injection Hr' as <-.
  - intros [[<- <-]|[_ Hr']]%lookup_insert_Some.
    + rewrite Hr in Hx. injection Hx as <-. done.
    + rewrite Hr in Hr'. by injection Hr' as <-.
  - intros [_ Hr']%lookup_delete_Some.
    rewrite Hr in Hr'. by injection Hr' as <-.
Qed.

(** X10: the creation time of a document never changes: in a reachable
    store, whatever calls follow, a document found under the same id
    afterwards carries the creation time it had. *)
Theorem creation_time_immutable (cs : list Call) db id r r' :
  reachable db →
  Db.todos db !! id = Some r →
  Db.todos (run cs db) !! id = Some r' →
  Row.creationTime r' = Row.creationTime r.
Proof.
  intros Hreach Hr Hr'.
  apply (run_row_invariant (λ x, Row.creationTime x = Row.creationTime r))
    with cs db id r; [|done|done|done|done].
  intros c db0 id0 x x' Hwf Hx Hct Hx'. rewrite <-Hct.
  by eapply store_step_creation_time; [apply exec_step|..].
Qed.

Lemma creation_time_immutable_witness :
  ∃ r',
    Db.todos
      (run [CallUpdate (UpdateArgs.mk 0 (Some (of_string "Buy bread")) None
                          None);
            CallCreate buy_milk; CallToggle 0] db_milk) !! 0 = Some r'
    ∧ Row.creationTime r' = Row.creationTime row_milk.
Proof.
  eexists. split; [by vm_compute|].
  apply (creation_time_immutable
           [CallUpdate (UpdateArgs.mk 0 (Some (of_string "Buy bread")) None
                          None);
            CallCreate buy_milk; CallToggle 0]
           db_milk 0).
  - apply reachable_run, reachable_empty.
  - reflexivity.
  - by vm_compute.
Defined.

(** One call never takes a description away from a document that has
    one: [updateTodo] can only replace it by a string. *)
Lemma exec_keeps_description c db id r r' :
  db_wf db →
  Db.todos db !! id = Some r → is_Some (Row.description r) →
  Db.todos (exec c db) !! id = Some r' → is_Some (Row.description r').
Proof.
  intros [Hb _] Hr Hsome. destruct c as [args|args|j|j]; simpl.
  - destruct (createTodo args db) as [db' [msg|d]] eqn:E; simpl.
    + apply createTodo_throws_unchanged in E as ->.
      intros Hr'. rewrite Hr in Hr'. by injection Hr' as <-.
    + destruct (createTodo_returns _ _ _ _ E) as (Ht & Hl & Hd).
      rewrite createTodo_accepts in E by done. injection E as <- _. simpl.
      intros [[<- _]|[_ Hr']]%lookup_insert_Some.
      * destruct (Hb _ _ Hr). lia.
      * rewrite Hr in Hr'. by injection Hr' as <-.
  - destruct (updateTodo args db) as [db' [msg|d]] eqn:E; simpl.
    + apply updateTodo_throws_unchanged in E as ->.
      intros Hr'. rewrite Hr in Hr'. by injection Hr' as <-.
    + destruct (updateTodo_returns _ _ _ _ E) as (x & Hx & Ht & Hd).
      rewrite (updateTodo_accepts _ _ x) in E by done.
      injection E as <- _. simpl.
      intros [[<- <-]|[_ Hr']]%lookup_insert_Some.
      * rewrite Hr in Hx. injection Hx as <-. unfold updated_row. simpl.
        by destruct (UpdateArgs.description args).
      * rewrite Hr in Hr'. by injection Hr' as <-.
  - destruct (Db.todos db !! j) as [x|] eqn:Hx.
    + rewrite (deleteTodo_present _ _ x) by done. simpl.
      intros [_ Hr']%lookup_delete_Some.
      rewrite Hr in Hr'. by injection Hr' as <-.
    + rewrite deleteTodo_missing by done. simpl.
      intros Hr'. rewrite Hr in Hr'. by injection Hr' as <-.
  - destruct (Db.todos db !! j) as [x|] eqn:Hx.
    + rewrite (toggleTodoCompleted_present _ _ x) by done. simpl.
      intros [[<- <-]|[_ Hr']]%lookup_insert_Some.
      * rewrite Hr in Hx. by injection Hx as <-.
      * rewrite Hr in Hr'. by injection Hr' as <-.
    + rewrite toggleTodoCompleted_missing by done. simpl.
      intros Hr'. rewrite Hr in Hr'. by injection Hr' as <-.
Qed.

(** X11: a description cannot be removed: in a reachable store, a
    document that has a description, the empty string included, still has
    one after any calls as long as it is there; [updateTodo] replaces a
    description by a string and never by nothing. *)
Theorem description_never_cleared (cs : list Call) db id r r' :
  reachable db →
  Db.todos db !! id = Some r → is_Some (Row.description r) →
  Db.todos (run cs db) !! id = Some r' → is_Some (Row.description r').
Proof.
  intros Hreach Hr Hsome Hr'.
  apply (run_row_invariant (λ x, is_Some (Row.description x)))
    with cs db id r; [|done|done|done|done].
  intros c db0 id0 x x'. apply exec_keeps_description.
Qed.

Lemma description_never_cleared_witness :
  ∃ r',
    Db.todos (run [CallUpdate (UpdateArgs.mk 0 None (Some []) None)] db_milk)
      !! 0 = Some r'
    ∧ is_Some (Row.description r').
Proof.
  eexists. split; [by vm_compute|].
  apply (description_never_cleared
           [CallUpdate (UpdateArgs.mk 0 None (Some []) None)] db_milk 0
           row_milk).
  - apply reachable_run, reachable_empty.
  - reflexivity.
  - eexists. reflexivity.
  - by vm_compute.
Defined.

End lifetime.

(** ** More on listing *)

Section more_listing.
Import JsString.
Implicit Types (db : Db.t) (id : N) (r : Row.t) (d x y : Todo.t).
Implicit Types (ds : list Todo.t).

#[local] Existing Instance newer_eq_total.
#[local] Existing Instance newer_eq_trans.

(** The id identifies a document of the table. *)
Lemma stored_id_inj db x y :
  stored db x → stored db y → Todo._id x = Todo._id y → x = y.
Proof.
  intros (r & Hr & ->) (r' & Hr' & ->) E. simpl in *.
  rewrite E in Hr. rewrite Hr in Hr'. injection Hr' as <-. by rewrite E.
Qed.

Lemma stored_getTodo db d :
  stored db d ↔ getTodo (Todo._id d) db = (db, inr (Some d)).
Proof.
  rewrite getTodo_eval. split.
  - intros (r & Hr & Hd). rewrite Hr. simpl. by rewrite <-Hd.
  - intros E. injection E as E.
    destruct (Db.todos db !! Todo._id d) as [r|] eqn:Hr; [|done].
    injection E as E. by exists r.
Qed.

Lemma StronglySorted_filter (P : Todo.t → Prop) `{∀ x, Decision (P x)} ds :
  StronglySorted newer_eq ds → StronglySorted newer_eq (filter P ds).
Proof.
  induction 1 as [|x ds Hs IH Hx]; [constructor|].
  rewrite filter_cons. destruct (decide (P x)); [|done].
  constructor; [done|]. rewrite Forall_forall in Hx |- *.
  intros y [_ Hy]%list_elem_of_filter. by apply Hx.
Qed.

(** X12: what [listTodos] returns can be fetched: every document of an
    unfiltered list is what [getTodo] returns for its id on the same
    store; and when the table holds no more documents than the limit,
    every document [getTodo] returns is in the unfiltered list. *)
Theorem listTodos_getTodo (limit : option nat) db d :
  ((∃ ds, listTodos (ListArgs.mk None limit) db = (db, inr ds) ∧ d ∈ ds) →
   getTodo (Todo._id d) db = (db, inr (Some d)))
  ∧ ((size (Db.todos db) <= default 100 limit)%nat →
     getTodo (Todo._id d) db = (db, inr (Some d)) →
     ∃ ds, listTodos (ListArgs.mk None limit) db = (db, inr ds) ∧ d ∈ ds).
Proof.
  split.
  - intros (ds & E & Hd). rewrite listTodos_eval in E. injection E as <-.
    apply stored_getTodo. apply elem_of_query_result in Hd.
    by apply elem_of_db_index_range in Hd as [? _].
  - intros Hsize Hget%stored_getTodo. eexists.
    split; [apply listTodos_eval|]. simpl. rewrite query_result_all.
    + apply elem_of_db_index_range. split; [done|]. by intros ? [=].
    + simpl. by rewrite length_db_documents.
Qed.

Lemma listTodos_getTodo_witness :
  getTodo 1 db_three
  = (db_three, inr (Some (Todo.mk 1 1 (of_string "b") None true)))
  ∧ ∃ ds,
      listTodos (ListArgs.mk None (Some 3%nat)) db_three = (db_three, inr ds)
      ∧ Todo.mk 0 0 (of_string "a") None false ∈ ds.
Proof.
  split.
  - destruct (listTodos_getTodo (Some 2%nat) db_three
                (Todo.mk 1 1 (of_string "b") None true)) as [H _].
    apply H. eexists. split; [by vm_compute|]. right. left.
  - destruct (listTodos_getTodo (Some 3%nat) db_three
                (Todo.mk 0 0 (of_string "a") None false)) as [_ H].
    apply H.
    + vm_compute. lia.
    + by vm_compute.
Defined.

(** X13: [listTodos] returns no document twice: the ids of the documents
    of a result are pairwise distinct, on every store and for every
    filter and limit. *)
Theorem listTodos_distinct_ids (args : ListArgs.t) db :
  ∃ ds, listTodos args db = (db, inr ds) ∧ NoDup (Todo._id <$> ds).
Proof.
  eexists. split; [apply listTodos_eval|].
  apply NoDup_fmap_2_strong; [|apply NoDup_query_result].
  intros x y Hx%elem_of_query_result Hy%elem_of_query_result.
  apply elem_of_db_index_range in Hx as [Hx _], Hy as [Hy _].
  by apply stored_id_inj with db.
Qed.

(** X14: a smaller limit returns a prefix: for [m <= n] and the same
    filter, the result for limit [m] is the first [m] documents of the
    result for limit [n]. *)
Theorem listTodos_limit_prefix (completed : option bool) (m n : nat) db :
  (m <= n)%nat →
  ∃ ds,
    listTodos (ListArgs.mk completed (Some n)) db = (db, inr ds)
    ∧ listTodos (ListArgs.mk completed (Some m)) db = (db, inr (take m ds)).
Proof.
  intros Hmn. eexists. split; [apply listTodos_eval|].
  rewrite listTodos_eval. simpl. unfold query_result.
  by rewrite take_take, Nat.min_l.
Qed.

Lemma listTodos_limit_prefix_witness :
  ∃ ds,
    listTodos (ListArgs.mk None (Some 3%nat)) db_three = (db_three, inr ds)
    ∧ listTodos (ListArgs.mk None (Some 1%nat)) db_three
      = (db_three, inr (take 1 ds)).
Proof. apply (listTodos_limit_prefix None 1 3 db_three). lia. Defined.

(** Within the limit, the range of the index in index order is the whole
    table in index order with the other flag taken out. *)
Lemma query_result_scan (c : bool) (n : nat) db :
  (size (Db.todos db) <= n)%nat →
  query_result (Some c) n db
  = filter (λ d, Todo.completed d = c) (query_result None n db).
Proof.
  intros Hsize. unfold query_result. simpl.
  rewrite (take_ge (merge_sort _ (db_documents db)))
    by by rewrite merge_sort_Permutation, length_db_documents.
  rewrite take_ge.
  2:{ rewrite merge_sort_Permutation.
      etrans; [apply length_filter|]. by rewrite length_db_documents. }
  apply (StronglySorted_unique_strong newer_eq).
  - intros x y Hx Hy Hxy Hyx.
    rewrite merge_sort_Permutation in Hx.
    apply list_elem_of_filter in Hx as [_ Hx], Hy as [_ Hy].
    rewrite merge_sort_Permutation in Hy.
    apply elem_of_db_documents in Hx, Hy.
    apply (stored_id_inj db); [done|done|].
    unfold newer_eq in *. lia.
  - apply StronglySorted_merge_sort; apply _.
  - apply StronglySorted_filter, StronglySorted_merge_sort; apply _.
  - by rewrite !merge_sort_Permutation.
Qed.

(** X15: while the table holds no more documents than the limit, the
    filtered list is the unfiltered list with the documents of the other
    flag taken out, in the same order: the indexed query and a scan of
    the full result agree. *)
Theorem listTodos_filter_is_scan (c : bool) (limit : option nat) db :
  (size (Db.todos db) <= default 100 limit)%nat →
  ∃ all,
    listTodos (ListArgs.mk None limit) db = (db, inr all)
    ∧ listTodos (ListArgs.mk (Some c) limit) db
      = (db, inr (filter (λ d, Todo.completed d = c) all)).
Proof.
  intros Hsize. eexists. split; [apply listTodos_eval|].
  rewrite listTodos_eval. simpl. by rewrite query_result_scan.
Qed.

Lemma listTodos_filter_is_scan_witness :
  ∃ all,
    listTodos (ListArgs.mk None None) db_three = (db_three, inr all)
    ∧ listTodos (ListArgs.mk (Some false) None) db_three
      = (db_three, inr (filter (λ d, Todo.completed d = false) all)).
Proof.
  apply (listTodos_filter_is_scan false None db_three). vm_compute. lia.
Defined.

End more_listing.

(** ** Lists after a mutation *)

Section lists_after.
Import JsString.
Implicit Types (db : Db.t) (id : N) (r : Row.t) (d x y : Todo.t).
Implicit Types (ds : list Todo.t).

#[local] Existing Instance newer_eq_total.
#[local] Existing Instance newer_eq_trans.

(** X16: on a reachable store and for a limit of at least one, the
    document [createTodo] returns is the first of the unfiltered list and
    of the list filtered by its own completed flag, and is not in the
    list filtered by the other flag. *)
Theorem createTodo_listed_by_flag (args : CreateArgs.t) (limit : option nat)
    db db' doc :
  reachable db → createTodo args db = (db', inr doc) →
  (0 < default 100 limit)%nat →
  (∃ ds, listTodos (ListArgs.mk None limit) db' = (db', inr (doc :: ds)))
  ∧ (∃ ds, listTodos (ListArgs.mk (Some (CreateArgs.completed args)) limit)
             db' = (db', inr (doc :: ds)))
  ∧ (∃ ds, listTodos
             (ListArgs.mk (Some (negb (CreateArgs.completed args))) limit)
             db' = (db', inr ds)
           ∧ doc ∉ ds).
Proof.
  intros Hreach E Hlimit. pose proof (reachable_wf _ Hreach) as Hwf.
  destruct (createTodo_returns _ _ _ _ E) as (Ht & Hl & Hd).
  rewrite createTodo_accepts in E by done. injection E as Edb Edoc.
  destruct (default 100%nat limit) as [|n] eqn:En; [lia|].
  assert (∀ ce,
            (∀ c, ce = Some c → CreateArgs.completed args = c) →
            ∃ ds, listTodos (ListArgs.mk ce limit) db'
                  = (db', inr (doc :: ds)))
    as Hhead.
  { intros ce Hce. subst db' doc. rewrite listTodos_eval. simpl. rewrite En.
    eexists. f_equal. f_equal. apply head_cons, query_result_head.
    - apply elem_of_db_index_range. split.
      + eexists. simpl. split; [apply lookup_insert_eq|done].
      + done.
    - intros x [Hx _]%elem_of_db_index_range Hne.
      by eapply created_is_newest. }
  split_and!.
  - apply Hhead. by intros ? [=].
  - apply Hhead. by intros ? [= <-].
  - eexists. split; [apply listTodos_eval|]. simpl.
    intros Hin%elem_of_query_result.
    apply elem_of_db_index_range in Hin as [_ Hin].
    specialize (Hin _ eq_refl). subst doc. simpl in Hin.
    by destruct (CreateArgs.completed args).
Qed.

Lemma createTodo_listed_by_flag_witness :
  ∃ ds,
    listTodos (ListArgs.mk (Some false) (Some 1%nat))
      (run [CallCreate buy_milk] db_three)
    = (run [CallCreate buy_milk] db_three,
       inr (Todo.mk 3 3 (of_string "Buy milk")
              (Some (of_string "2 litres")) false :: ds)).
Proof.
  destruct (createTodo_listed_by_flag buy_milk (Some 1%nat) db_three
              (run [CallCreate buy_milk] db_three)
              (Todo.mk 3 3 (of_string "Buy milk")
                 (Some (of_string "2 litres")) false))
    as (_ & H & _).
  - apply reachable_run, reachable_empty.
  - by vm_compute.
  - simpl. lia.
  - exact H.
Defined.

(** X17: after [deleteTodo] has returned, no list, whatever its filter
    and limit, holds a document with the deleted id, and every document
    listed is one that was stored before. *)
Theorem deleteTodo_unlisted (args : ListArgs.t) id db db' :
  deleteTodo id db = (db', inr ()) →
  ∃ ds,
    listTodos args db' = (db', inr ds)
    ∧ ∀ d, d ∈ ds → Todo._id d ≠ id ∧ stored db d.
Proof.
  intros E. destruct (Db.todos db !! id) as [r|] eqn:Hr.
  - rewrite (deleteTodo_present _ _ r) in E by done. injection E as <-.
    eexists. split; [apply listTodos_eval|].
    intros d Hd%elem_of_query_result.
    apply elem_of_db_index_range in Hd as [(x & Hx & Hd) _]. simpl in Hx.
    apply lookup_delete_Some in Hx as [Hne Hx]. split; [done|by exists x].
  - by rewrite deleteTodo_missing in E.
Qed.

Lemma deleteTodo_unlisted_witness :
  ∃ ds,
    listTodos (ListArgs.mk None None) (run [CallDelete 1] db_three)
    = (run [CallDelete 1] db_three, inr ds)
    ∧ ∀ d, d ∈ ds → Todo._id d ≠ 1 ∧ stored db_three d.
Proof.
  apply (deleteTodo_unlisted (ListArgs.mk None None) 1 db_three).
  by vm_compute.
Defined.

Lemma StronglySorted_fmap_key (g : Todo.t → Todo.t) ds :
  (∀ x, x ∈ ds →
     Todo._creationTime (g x) = Todo._creationTime x
     ∧ Todo._id (g x) = Todo._id x) →
  StronglySorted newer_eq ds → StronglySorted newer_eq (g <$> ds).
Proof.
  intros Hkey Hs. induction Hs as [|x ds Hs IH Hx]; [constructor|].
  csimpl. constructor.
  - apply IH. intros y Hy. apply Hkey. by right.
  - rewrite Forall_fmap, Forall_forall. rewrite Forall_forall in Hx.
    intros y Hy. simpl. specialize (Hx y Hy).
    destruct (Hkey x) as [E1 E2]; [by left|].
    destruct (Hkey y) as [E3 E4]; [by right|].
    unfold newer_eq in *. rewrite E1, E2, E3, E4. done.
Qed.

(** Replacing the row under an id by one of the same creation time
    replaces the document in place in the unfiltered result. *)
Lemma query_result_replace db id r r' n :
  Db.todos db !! id = Some r →
  Row.creationTime r' = Row.creationTime r →
  query_result None n
    (Db.mk (<[id := r']> (Db.todos db)) (Db.next_id db) (Db.clock db))
  = (λ d, if decide (Todo._id d = id) then doc_of id r' else d)
      <$> query_result None n db.
Proof.
  intros Hr Hct.
  set (db' := Db.mk (<[id := r']> (Db.todos db)) (Db.next_id db)
                (Db.clock db)).
  set (g := λ d, if decide (Todo._id d = id) then doc_of id r' else d).
  assert (∀ y, stored db y →
            stored db' (g y)
            ∧ Todo._creationTime (g y) = Todo._creationTime y
            ∧ Todo._id (g y) = Todo._id y) as Hg.
  { intros y (x & Hx & Hy). unfold g.
    destruct (decide (Todo._id y = id)) as [E|Hne].
    - rewrite E in Hx. rewrite Hr in Hx. injection Hx as <-. split_and!.
      + exists r'. simpl. split; [apply lookup_insert_eq|done].
      + rewrite Hy. simpl. done.
      + simpl. done.
    - split_and!; [|done|done]. exists x. simpl.
      split; [by rewrite lookup_insert_ne|done]. }
  assert (db_documents db' ≡ₚ g <$> db_documents db) as Hperm.
  { apply NoDup_Permutation.
    - apply NoDup_db_documents.
    - apply NoDup_fmap_2_strong; [|apply NoDup_db_documents].
      intros x y Hx%elem_of_db_documents Hy%elem_of_db_documents E.
      apply (stored_id_inj db); [done|done|].
      destruct (Hg x Hx) as (_ & _ & <-). destruct (Hg y Hy) as (_ & _ & <-).
      by rewrite E.
    - intros x. rewrite elem_of_db_documents, list_elem_of_fmap. split.
      + intros (row & Hrow & Hx). simpl in Hrow.
        apply lookup_insert_Some in Hrow as [[Hid <-]|[Hne Hrow]].
        * exists (doc_of id r). split.
          -- unfold g. simpl. rewrite decide_True by done.
             by rewrite Hx, <-Hid.
          -- apply elem_of_db_documents. by exists r.
        * exists x. split.
          -- unfold g. by rewrite decide_False.
          -- apply elem_of_db_documents. by exists row.
      + intros (y & -> & Hy%elem_of_db_documents). by apply Hg. }
  unfold query_result. simpl. rewrite fmap_take. f_equal.
  apply (StronglySorted_unique_strong newer_eq).
  - intros x y Hx Hy Hxy Hyx.
    rewrite merge_sort_Permutation in Hx. apply elem_of_db_documents in Hx.
    assert (stored db' y) as Hy'.
    { apply list_elem_of_fmap in Hy as (z & -> & Hz).
      rewrite merge_sort_Permutation in Hz.
      apply elem_of_db_documents in Hz. by apply Hg. }
    apply (stored_id_inj db'); [done|done|].
    unfold newer_eq in *. lia.
  - apply StronglySorted_merge_sort; apply _.
  - apply StronglySorted_fmap_key.
    + intros x Hx. rewrite merge_sort_Permutation in Hx.
      apply elem_of_db_documents in Hx. by destruct (Hg x Hx) as (_ & ? & ?).
    + apply StronglySorted_merge_sort; apply _.
  - by rewrite !merge_sort_Permutation.
Qed.

(** X18: an update never reorders the list: after [updateTodo] has
    returned, the unfiltered list is the list from before the call with
    the returned document in the place of the one with its id, every
    other document and the order being the same. *)
Theorem updateTodo_keeps_order (args : UpdateArgs.t) (limit : option nat)
    db db' doc :
  updateTodo args db = (db', inr doc) →
  ∃ ds,
    listTodos (ListArgs.mk None limit) db = (db, inr ds)
    ∧ listTodos (ListArgs.mk None limit) db'
      = (db',
         inr ((λ d, if decide (Todo._id d = UpdateArgs.todoId args)
                    then doc else d) <$> ds)).
Proof.
  intros E. destruct (updateTodo_returns _ _ _ _ E) as (r & Hr & Ht & Hd).
  rewrite (updateTodo_accepts _ _ r) in E by done. injection E as <- <-.
  eexists. split; [apply listTodos_eval|]. rewrite listTodos_eval. simpl.
  by rewrite (query_result_replace db _ r).
Qed.

Lemma updateTodo_keeps_order_witness :
  ∃ ds,
    listTodos (ListArgs.mk None None) db_three = (db_three, inr ds)
    ∧ Todo._id <$> ds = [2; 1; 0]
    ∧ ∃ ds',
        listTodos (ListArgs.mk None None)
          (run [CallUpdate (UpdateArgs.mk 1 (Some (of_string "z")) None None)]
             db_three)
        = (run [CallUpdate (UpdateArgs.mk 1 (Some (of_string "z")) None None)]
             db_three, inr ds')
        ∧ Todo._id <$> ds' = [2; 1; 0].
Proof.
  destruct (updateTodo_keeps_order
              (UpdateArgs.mk 1 (Some (of_string "z")) None None) None
              db_three
              (run [CallUpdate
                      (UpdateArgs.mk 1 (Some (of_string "z")) None None)]
                 db_three)
              (Todo.mk 1 1 (of_string "z") None true))
    as (ds & E & E').
  - by vm_compute.
  - exists ds. split; [exact E|].
    rewrite listTodos_eval in E. injection E as <-.
    split; [by vm_compute|]. eexists. split; [exact E'|by vm_compute].
Defined.

(** X19: the optimistic update of the guide shows what the server will
    answer: applied to the cached result of [listTodos({})], the updater
    of [handleToggle] gives the result of [listTodos({})] on the store as
    [toggleTodoCompleted] leaves it, whether the call returns or throws;
    and it leaves a missing cache missing. *)
Theorem optimistic_toggle_agrees id db :
  (∃ ds ds',
     listTodos (ListArgs.mk None None) db = (db, inr ds)
     ∧ listTodos (ListArgs.mk None None) (exec (CallToggle id) db)
       = (exec (CallToggle id) db, inr ds')
     ∧ Guide.optimistic_toggle id (Some ds) = Some ds')
  ∧ Guide.optimistic_toggle id None = None.
Proof.
  split; [|done]. eexists _, _. split; [apply listTodos_eval|].
  split; [apply listTodos_eval|]. simpl. f_equal.
  destruct (Db.todos db !! id) as [r|] eqn:Hr.
  - rewrite (toggleTodoCompleted_present _ _ r) by done. simpl.
    rewrite (query_result_replace db id r) by done.
    apply list_fmap_ext. intros i d Hd%list_elem_of_lookup_2.
    apply elem_of_query_result, elem_of_db_index_range in Hd as [Hd _].
    destruct (decide (Todo._id d = id)) as [E|Hne]; [|done].
    destruct Hd as (x & Hx & ->). simpl in *. rewrite E in Hx.
    rewrite Hr in Hx. injection Hx as <-. by rewrite E.
  - rewrite toggleTodoCompleted_missing by done. simpl.
    rewrite <-(list_fmap_id (query_result None 100 db)) at 2.
    apply list_fmap_ext. intros i d Hd%list_elem_of_lookup_2.
    apply elem_of_query_result, elem_of_db_index_range in Hd as [Hd _].
    destruct (decide (Todo._id d = id)) as [E|Hne]; [|done].
    destruct Hd as (x & Hx & _). rewrite E in Hx. congruence.
Qed.

End lists_after.

(** ** The form and the server *)

Section form.
Import JsString.
Implicit Types (db : Db.t) (value : CreateArgs.t).

Lemma title_onChange_eval (title : jsstring) :
  title_onChange title =
    if decide (trim title = []) then Some "Title is required"%string
    else if decide (200 < length title)%nat
    then Some "Title must be less than 200 characters"%string
    else None.
Proof.
  unfold title_onChange.
  destruct (negb _ || _) eqn:E1.
  - apply title_required_guard in E1. by rewrite decide_True.
  - apply not_true_iff_false in E1. rewrite title_required_guard in E1.
    rewrite decide_False by done.
    destruct (200 <? length title)%nat eqn:E2.
    + apply Nat.ltb_lt in E2. by rewrite decide_True.
    + apply Nat.ltb_ge in E2. rewrite decide_False; [done|lia].
Qed.

Lemma description_onChange_eval (description : jsstring) :
  description_onChange description =
    if decide (1000 < length description)%nat
    then Some "Description must be less than 1000 characters"%string
    else None.
Proof.
  unfold description_onChange.
  destruct (truthy description && _) eqn:E.
  - apply description_guard in E. by rewrite decide_True.
  - apply not_true_iff_false in E. rewrite description_guard in E.
    by rewrite decide_False.
Qed.

(** X23: the validators of the two fields say what the server will say:
    when the title validator returns a message, [createTodo] throws that
    message; when it returns none and the description validator returns
    a message, [createTodo] throws that one; when both return none,
    [createTodo] returns. *)
Theorem field_validators_match_createTodo (args : CreateArgs.t) db :
  match title_onChange (CreateArgs.title args),
        from_option description_onChange None (CreateArgs.description args)
  with
  | Some msg, _ => createTodo args db = (db, inl msg)
  | None, Some msg => createTodo args db = (db, inl msg)
  | None, None => ∃ db' doc, createTodo args db = (db', inr doc)
  end.
Proof.
  rewrite title_onChange_eval.
  destruct (decide (trim (CreateArgs.title args) = [])) as [E|Hne].
  { by apply createTodo_title_required. }
  destruct (decide (200 < length (CreateArgs.title args))%nat) as [Hl|Hl].
  { by apply createTodo_title_too_long. }
  destruct (CreateArgs.description args) as [d|] eqn:Ed; simpl.
  - rewrite description_onChange_eval.
    destruct (decide (1000 < length d)%nat) as [Hd|Hd].
    + by apply (createTodo_description_too_long _ _ d); [|lia|..].
    + eexists _, _. apply createTodo_accepts; [done|lia|].
      intros x Hx. rewrite Ed in Hx. injection Hx as <-. lia.
  - eexists _, _. apply createTodo_accepts; [done|lia|].
    intros x Hx. congruence.
Qed.

Lemma code_points_le_aux (s : jsstring) :
  (Zod.code_points s <= length s)%nat
  ∧ ∀ c, (Zod.code_points (c :: s) <= S (length s))%nat.
Proof.
  induction s as [|c' s [IH1 IH2]]; [split; [done|intros c; simpl; lia]|].
  split; [apply IH2|].
  intros c. change (Zod.code_points (c :: c' :: s))
    with (if Zod.is_high_surrogate c && Zod.is_low_surrogate c'
          then S (Zod.code_points s) else S (Zod.code_points (c' :: s))).
  destruct (_ && _); simpl length; [lia|]. specialize (IH2 c'). lia.
Qed.

(** Code points are at most as many as code units, and a string that is
    not empty has at least one. *)
Lemma code_points_le (s : jsstring) : (Zod.code_points s <= length s)%nat.
Proof. apply code_points_le_aux. Qed.

Lemma code_points_pos (s : jsstring) : s ≠ [] → (1 <= Zod.code_points s)%nat.
Proof.
  destruct s as [|c [|c' s]]; [done|simpl; lia|]. intros _.
  change (Zod.code_points (c :: c' :: s))
    with (if Zod.is_high_surrogate c && Zod.is_low_surrogate c'
          then S (Zod.code_points s) else S (Zod.code_points (c' :: s))).
  destruct (_ && _); lia.
Qed.

Section schema.

(** The unit [min] and [max] of zod count in: at most the number of code
    units, and at least one for a string that is not empty.  Code units
    and code points both are such a unit. *)
Variable measure : jsstring → nat.
Hypothesis measure_le : ∀ s : jsstring, (measure s <= length s)%nat.
Hypothesis measure_pos : ∀ s : jsstring, s ≠ [] → (1 <= measure s)%nat.

Lemma measure_nil : measure [] = 0%nat.
Proof. pose proof (measure_le []) as H. simpl in H. lia. Qed.

Lemma measure_nonempty (s : jsstring) : (1 <= measure s)%nat → s ≠ [].
Proof. intros H ->. rewrite measure_nil in H. lia. Qed.

(** What [todoSchema] accepts, in the unit of [measure]. *)
Lemma todoSchema_safeParse_inr value validated :
  todoSchema_safeParse measure value = inr validated
  ↔ (1 <= measure (trim (CreateArgs.title value)) <= 200)%nat
    ∧ (∀ d, CreateArgs.description value = Some d →
         (measure d <= 1000)%nat)
    ∧ validated
      = CreateArgs.mk (trim (CreateArgs.title value))
          (CreateArgs.description value) (CreateArgs.completed value).
Proof.
  unfold todoSchema_safeParse, todoSchema_title, todoSchema_description.
  simpl.
  destruct (Nat.ltb_spec (measure (trim (CreateArgs.title value))) 1)
    as [H1|H1];
    destruct (Nat.ltb_spec 200 (measure (trim (CreateArgs.title value))))
      as [H2|H2];
    try (split; [done|intros [? _]; lia]).
  destruct (CreateArgs.description value) as [d|] eqn:Ed.
  - destruct (Nat.ltb_spec 1000 (measure d)) as [H3|H3].
    + split; [done|]. intros (_ & Hd & _). specialize (Hd d eq_refl). lia.
    + split.
      * intros [= <-]. split_and!; [lia|lia| |done]. by intros ? [= <-].
      * by intros (_ & _ & ->).
  - split.
    + intros [= <-]. split_and!; [lia|lia|done|done].
    + by intros (_ & _ & ->).
Qed.

(** The field errors for a title that is empty after trimming. *)
Lemma todoSchema_safeParse_empty_title value :
  trim (CreateArgs.title value) = [] →
  ∃ errors,
    todoSchema_safeParse measure value = inl errors
    ∧ FieldErrors.title errors = ["Title is required"%string].
Proof.
  intros E. unfold todoSchema_safeParse, todoSchema_title. simpl.
  rewrite E, measure_nil. simpl. by eexists.
Qed.

(** X20: in whatever unit zod counts a length, as long as the count is at
    most the number of code units and at least one for a string that is
    not empty: [todoSchema] accepts a value exactly when its title,
    trimmed, counts 1 to 200 and its description is absent or counts at
    most 1000, and the parsed data carry the trimmed title, which is not
    empty, and the description and flag as given.  So it accepts every
    value whose trimmed title is 1 to 200 code units long and whose
    description is at most 1000 code units long, and it refuses a title
    that is empty after trimming with "Title is required". *)
Theorem todoSchema_safeParse_iff value :
  (∀ validated,
     todoSchema_safeParse measure value = inr validated
     ↔ (1 <= measure (trim (CreateArgs.title value)) <= 200)%nat
       ∧ (∀ d, CreateArgs.description value = Some d →
            (measure d <= 1000)%nat)
       ∧ validated
         = CreateArgs.mk (trim (CreateArgs.title value))
             (CreateArgs.description value) (CreateArgs.completed value))
  ∧ (∀ validated,
       todoSchema_safeParse measure value = inr validated →
       trim (CreateArgs.title value) ≠ [])
  ∧ ((1 <= length (trim (CreateArgs.title value)) <= 200)%nat →
     (∀ d, CreateArgs.description value = Some d →
        (length d <= 1000)%nat) →
     todoSchema_safeParse measure value
     = inr (CreateArgs.mk (trim (CreateArgs.title value))
              (CreateArgs.description value) (CreateArgs.completed value)))
  ∧ (trim (CreateArgs.title value) = [] →
     ∃ errors,
       todoSchema_safeParse measure value = inl errors
       ∧ FieldErrors.title errors = ["Title is required"%string]).
Proof.
  split_and!.
  - apply todoSchema_safeParse_inr.
  - intros validated [[Hpos _] _]%todoSchema_safeParse_inr.
    by apply measure_nonempty.
  - intros [Hpos Hl] Hd. apply todoSchema_safeParse_inr.
    pose proof (measure_le (trim (CreateArgs.title value))).
    assert (trim (CreateArgs.title value) ≠ []) as Hne.
    { intros E. rewrite E in Hpos. simpl in Hpos. lia. }
    pose proof (measure_pos _ Hne). split_and!; [lia|lia| |done].
    intros d Ed. specialize (Hd d Ed). pose proof (measure_le d). lia.
  - apply todoSchema_safeParse_empty_title.
Qed.

(** X21: for a value [todoSchema] has accepted, [createTodo] called with
    the parsed data never throws "Title is required"; it returns exactly
    when the trimmed title is at most 200 code units long and the
    description at most 1000, and then the document carries the parsed
    title unchanged, the trimmed description and the flag given;
    otherwise it throws one of its two length errors and leaves the store
    alone. *)
Theorem todoSchema_then_createTodo value validated db :
  todoSchema_safeParse measure value = inr validated →
  ((∃ db' doc, createTodo validated db = (db', inr doc))
   ↔ (length (trim (CreateArgs.title value)) <= 200)%nat
     ∧ (∀ d, CreateArgs.description value = Some d →
          (length d <= 1000)%nat))
  ∧ (∀ db' doc,
       createTodo validated db = (db', inr doc) →
       Todo.title doc = CreateArgs.title validated
       ∧ Todo.description doc = trim <$> CreateArgs.description value
       ∧ Todo.completed doc = CreateArgs.completed value)
  ∧ (∀ db' msg,
       createTodo validated db = (db', inl msg) →
       db' = db
       ∧ (msg = "Title must be less than 200 characters"%string
          ∨ msg = "Description must be less than 1000 characters"%string)).
Proof.
  intros E. apply todoSchema_safeParse_inr in E as ([Hpos _] & _ & ->).
  apply measure_nonempty in Hpos.
  assert (trim (trim (CreateArgs.title value)) ≠ []) as Hne
    by by rewrite trim_idemp.
  split_and!.
  - split.
    + intros (db' & doc & Ec).
      by destruct (createTodo_returns _ _ _ _ Ec) as (_ & Hl & Hd).
    + intros [Hl Hd]. eexists _, _. by apply createTodo_accepts.
  - intros db' doc Ec.
    destruct (createTodo_returns _ _ _ _ Ec) as (_ & Hl & Hd).
    rewrite createTodo_accepts in Ec by done. injection Ec as _ <-.
    simpl. by rewrite trim_idemp.
  - intros db' msg Ec. destruct (createTodo_throws _ _ _ _ Ec) as [-> Hm].
    split; [done|]. destruct Hm as [->|[->| ->]]; [|auto..].
    exfalso. revert Ec. unfold createTodo. simpl.
    destruct (negb _ || _) eqn:E1; [by apply title_required_guard in E1|].
    destruct (200 <? _)%nat; [done|].
    destruct (match CreateArgs.description value with
              | Some d => _ | None => _ end); [done|].
    unfold bind, db_insert, db_get, ret. simpl.
    by rewrite lookup_insert_eq.
Qed.

(** X22: [onSubmit] on a reachable store does one of three things.  It
    throws the [ZodError] with the field errors the form validator shows
    and leaves the store alone.  Or the schema lets the value through and
    [createTodo] refuses it, with "Title must be less than 200
    characters" when the trimmed title is longer than 200 code units and
    else with "Description must be less than 1000 characters" when the
    description is longer than 1000 code units, never with "Title is
    required", and the store is left alone.  Or it creates a todo with
    the trimmed title, the trimmed description, which is never absent,
    and the flag of the form, and that todo is the first of the list. *)
Theorem onSubmit_outcome (value : FormValue.t) db :
  reachable db →
  match onSubmit measure value db with
  | (db', inl (ZodError fieldErrors)) =>
      db' = db ∧ form_onChange measure value = Some fieldErrors
  | (db', inl (MutationError msg)) =>
      db' = db
      ∧ form_onChange measure value = None
      ∧ ((msg = "Title must be less than 200 characters"%string
          ∧ (200 < length (trim (FormValue.title value)))%nat)
         ∨ (msg = "Description must be less than 1000 characters"%string
            ∧ (length (trim (FormValue.title value)) <= 200)%nat
            ∧ (1000 < length (FormValue.description value))%nat))
  | (db', inr _) =>
      form_onChange measure value = None
      ∧ (length (trim (FormValue.title value)) <= 200)%nat
      ∧ (length (FormValue.description value) <= 1000)%nat
      ∧ ∃ ds,
          listTodos (ListArgs.mk None None) db'
          = (db',
             inr (Todo.mk (Db.next_id db) (Db.clock db)
                    (trim (FormValue.title value))
                    (Some (trim (FormValue.description value)))
                    (FormValue.completed value) :: ds))
  end.
Proof.
  intros Hreach. unfold onSubmit, form_onChange.
  destruct (todoSchema_safeParse measure (FormValue.to_schema value))
    as [errors|validated] eqn:E; [done|].
  apply todoSchema_safeParse_inr in E as ([Hpos _] & _ & ->).
  apply measure_nonempty in Hpos. simpl in *.
  assert (trim (trim (FormValue.title value)) ≠ []) as Hne
    by by rewrite trim_idemp.
  destruct (decide (200 < length (trim (FormValue.title value)))%nat)
    as [Hlong|Hshort].
  { rewrite createTodo_title_too_long by done. auto. }
  destruct (decide (1000 < length (FormValue.description value))%nat)
    as [Hdlong|Hdshort].
  { rewrite (createTodo_description_too_long _ _
               (FormValue.description value)); [|done|simpl; lia|done|done].
    split; [done|]. split; [done|]. right. split_and!; [done|lia|done]. }
  pose proof (createTodo_accepts
                (CreateArgs.mk (trim (FormValue.title value))
                   (Some (FormValue.description value))
                   (FormValue.completed value)) db) as Ec.
  simpl in Ec. rewrite trim_idemp in Ec.
  assert (∀ d, Some (FormValue.description value) = Some d →
               (length d <= 1000)%nat) as Hd.
  { intros d [= <-]. lia. }
  specialize (Ec Hpos ltac:(lia) Hd).
  destruct (createTodo_listed_first _ _ _ _ Hreach Ec) as [ds Hds].
  rewrite Ec. split_and!; [done|lia|lia|by exists ds].
Qed.

(** X24: the schema is the more lenient check, in whatever unit zod
    counts a length, as long as the count is at most the number of code
    units and at least one for a string that is not empty: every value
    whose title and description pass their field validators passes
    [todoSchema], so the form validator has no errors for it; the
    converse fails for a title that is within bounds only once trimmed. *)
Theorem field_validators_imply_schema (value : FormValue.t) :
  (title_onChange (FormValue.title value) = None →
   description_onChange (FormValue.description value) = None →
   form_onChange measure value = None)
  ∧ form_onChange measure (FormValue.mk padded_title [] false) = None
  ∧ title_onChange padded_title
    = Some "Title must be less than 200 characters"%string.
Proof.
  assert (∀ v : FormValue.t,
            trim (FormValue.title v) ≠ [] →
            (length (trim (FormValue.title v)) <= 200)%nat →
            (length (FormValue.description v) <= 1000)%nat →
            form_onChange measure v = None) as Hpass.
  { intros v Hne Hl Hd. unfold form_onChange.
    rewrite (proj2 (todoSchema_safeParse_inr (FormValue.to_schema v)
                      (CreateArgs.mk (trim (FormValue.title v))
                         (Some (FormValue.description v))
                         (FormValue.completed v)))); [done|].
    simpl. pose proof (measure_pos _ Hne).
    pose proof (measure_le (trim (FormValue.title v))).
    split_and!; [lia|lia| |done].
    intros d [= <-]. pose proof (measure_le (FormValue.description v)). lia. }
  split; [|split; [|by vm_compute]].
  - rewrite title_onChange_eval, description_onChange_eval.
    destruct (decide (trim (FormValue.title value) = [])) as [E|Hne];
      [done|].
    destruct (decide (200 < length (FormValue.title value))%nat) as [Hl|Hl];
      [done|].
    destruct (decide (1000 < length (FormValue.description value))%nat)
      as [Hd|Hd]; [done|].
    intros _ _. pose proof (trim_length (FormValue.title value)).
    apply Hpass; [done|lia|lia].
  - apply Hpass.
    + vm_compute. discriminate.
    + vm_compute. lia.
    + simpl. lia.
Qed.

End schema.

Lemma todoSchema_safeParse_iff_witness :
  todoSchema_safeParse Zod.code_points
    (CreateArgs.mk padded_title None false)
  = inr (CreateArgs.mk [97] None false)
  ∧ todoSchema_safeParse Zod.code_points
      (CreateArgs.mk emoji_title None false)
    = inr (CreateArgs.mk emoji_title None false).
Proof.
  split.
  - destruct (todoSchema_safeParse_iff Zod.code_points code_points_le
                code_points_pos (CreateArgs.mk padded_title None false))
      as (_ & _ & H & _).
    apply H.
    + vm_compute. lia.
    + intros d. simpl. discriminate.
  - destruct (todoSchema_safeParse_iff Zod.code_points code_points_le
                code_points_pos (CreateArgs.mk emoji_title None false))
      as (H & _).
    apply H. split; [|split].
    + vm_compute. lia.
    + intros d. simpl. discriminate.
    + by vm_compute.
Defined.

Lemma todoSchema_then_createTodo_witness :
  (∃ db' doc,
     createTodo (CreateArgs.mk [97] None false) db_milk = (db', inr doc))
  ∧ ¬ ∃ db' doc,
        createTodo (CreateArgs.mk emoji_title None false) db_milk
        = (db', inr doc).
Proof.
  split.
  - destruct (todoSchema_then_createTodo Zod.code_points code_points_le
                (CreateArgs.mk padded_title None false)
                (CreateArgs.mk [97] None false) db_milk) as [H _].
    + by vm_compute.
    + apply H. split; [vm_compute; lia|]. intros d. simpl. discriminate.
  - destruct (todoSchema_then_createTodo Zod.code_points code_points_le
                (CreateArgs.mk emoji_title None false)
                (CreateArgs.mk emoji_title None false) db_milk) as [H _].
    + by vm_compute.
    + intros Hex. apply H in Hex as [Hl _]. revert Hl. vm_compute. lia.
Defined.

Lemma onSubmit_outcome_witness :
  onSubmit Zod.code_points (FormValue.mk emoji_title [] false) db_milk
  = (db_milk,
     inl (MutationError "Title must be less than 200 characters"))
  ∧ (200 < length (trim emoji_title))%nat.
Proof.
  pose proof (onSubmit_outcome Zod.code_points code_points_le
                (FormValue.mk emoji_title [] false) db_milk) as H.
  assert (onSubmit Zod.code_points (FormValue.mk emoji_title [] false)
            db_milk
          = (db_milk,
             inl (MutationError "Title must be less than 200 characters")))
    as E by by vm_compute.
  rewrite E in H. split; [exact E|].
  destruct H as (_ & _ & [[_ Hl]|[Hm _]]).
  - apply reachable_run, reachable_empty.
  - exact Hl.
  - discriminate Hm.
Defined.

Lemma field_validators_imply_schema_witness :
  form_onChange Zod.code_points
    (FormValue.mk (of_string "Buy milk") [] false) = None.
Proof.
  destruct (field_validators_imply_schema Zod.code_points code_points_le
              code_points_pos
              (FormValue.mk (of_string "Buy milk") [] false)) as [H _].
  apply H; reflexivity.
Defined.

End form.

(** ** The handlers and patterns of the guide *)

Section guide.
Import JsString.
Implicit Types (db : Db.t) (id : N) (r : Row.t).

Lemma guide_createTodo_eval (args : CreateArgs.t) db :
  Guide.createTodo args db =
    if decide (trim (CreateArgs.title args) = [])
    then (db, inl "Title is required"%string)
    else
      let row := Row.mk (Db.clock db) (trim (CreateArgs.title args))
                   (trim <$> CreateArgs.description args)
                   (CreateArgs.completed args) in
      (Db.mk (<[Db.next_id db := row]> (Db.todos db))
         (Db.next_id db + 1) (Db.clock db + 1),
       inr (doc_of (Db.next_id db) row)).
Proof.
  unfold Guide.createTodo. destruct (negb _ || _) eqn:E1.
  - apply title_required_guard in E1. by rewrite decide_True.
  - apply not_true_iff_false in E1. rewrite title_required_guard in E1.
    rewrite decide_False by done.
    unfold bind, db_insert, db_get, ret. simpl. by rewrite lookup_insert_eq.
Qed.

Lemma guide_updateTodo_eval (args : UpdateArgs.t) db :
  Guide.updateTodo args db =
    match Db.todos db !! UpdateArgs.todoId args with
    | None => (db, inl "Todo not found"%string)
    | Some r =>
        (Db.mk (<[UpdateArgs.todoId args := updated_row args r]> (Db.todos db))
           (Db.next_id db) (Db.clock db),
         inr (doc_of (UpdateArgs.todoId args) (updated_row args r)))
    end.
Proof.
  unfold Guide.updateTodo, updated_row.
  destruct args as [id ot od oc]; simpl.
  unfold bind at 1. unfold db_get at 1. simpl.
  destruct (Db.todos db !! id) as [r|] eqn:Hr; simpl; [|done].
  destruct ot, od, oc; unfold bind, db_get, db_patch, ret; simpl;
    rewrite Hr; simpl; by rewrite lookup_insert_eq.
Qed.

(** X25: the deployed [createTodo] is the guide's [createTodo] with two
    more guards: whenever the deployed handler returns, the guide's
    handler returns the same document and leaves the same store; the
    guide's handler returns for every title that is not empty after
    trimming, however long the title and the description are. *)
Theorem guide_createTodo_agrees (args : CreateArgs.t) db :
  (∀ db' doc,
     createTodo args db = (db', inr doc) →
     Guide.createTodo args db = (db', inr doc))
  ∧ ((∃ db' doc, Guide.createTodo args db = (db', inr doc))
     ↔ trim (CreateArgs.title args) ≠ []).
Proof.
  split.
  - intros db' doc E. destruct (createTodo_returns _ _ _ _ E) as (Ht & Hl & Hd).
    rewrite createTodo_accepts in E by done.
    rewrite guide_createTodo_eval, decide_False by done. done.
  - rewrite guide_createTodo_eval.
    destruct (decide (trim (CreateArgs.title args) = [])) as [E|Hne].
    + split; [by intros (? & ? & ?)|done].
    + split; [done|]. intros _. by eexists _, _.
Qed.

Lemma guide_createTodo_agrees_witness :
  Guide.createTodo buy_milk Db.empty = (db_milk, inr (doc_of 0 row_milk))
  ∧ ∃ db' doc,
      Guide.createTodo (CreateArgs.mk padded_title None false) db_milk
      = (db', inr doc).
Proof.
  split.
  - destruct (guide_createTodo_agrees buy_milk Db.empty) as [H _].
    apply H. by vm_compute.
  - destruct (guide_createTodo_agrees
                (CreateArgs.mk padded_title None false) db_milk) as [_ H].
    apply H. vm_compute. discriminate.
Defined.

(** X26: the deployed [updateTodo] is the guide's [updateTodo] with
    guards: whenever the deployed handler returns, the guide's handler
    returns the same document and leaves the same store.  The guide's
    handler returns for every stored id whatever the fields are, so a
    supplied title of white space only is stored as the empty string. *)
Theorem guide_updateTodo_agrees (args : UpdateArgs.t) db :
  (∀ db' doc,
     updateTodo args db = (db', inr doc) →
     Guide.updateTodo args db = (db', inr doc))
  ∧ ((∃ db' doc, Guide.updateTodo args db = (db', inr doc))
     ↔ is_Some (Db.todos db !! UpdateArgs.todoId args))
  ∧ (∀ t db' doc,
       UpdateArgs.title args = Some t → trim t = [] →
       Guide.updateTodo args db = (db', inr doc) →
       Todo.title doc = []
       ∧ getTodo (UpdateArgs.todoId args) db' = (db', inr (Some doc))).
Proof.
  rewrite guide_updateTodo_eval. split_and!.
  - intros db' doc E.
    destruct (updateTodo_returns _ _ _ _ E) as (r & Hr & Ht & Hd).
    rewrite (updateTodo_accepts _ _ r) in E by done. by rewrite Hr.
  - destruct (Db.todos db !! UpdateArgs.todoId args) as [r|].
    + split; [by eexists|]. intros _. by eexists _, _.
    + split; [by intros (? & ? & ?)|by intros [? ?]].
  - intros t db' doc Ht He.
    destruct (Db.todos db !! UpdateArgs.todoId args) as [r|]; [|done].
    intros [= <- <-]. simpl. rewrite Ht. split; [done|].
    rewrite getTodo_eval. simpl. by rewrite lookup_insert_eq.
Qed.

Lemma guide_updateTodo_agrees_witness :
  ∃ db' doc,
    Guide.updateTodo (UpdateArgs.mk 0 (Some [32; 32]) None None) db_milk
    = (db', inr doc)
    ∧ Todo.title doc = []
    ∧ getTodo 0 db' = (db', inr (Some doc)).
Proof.
  destruct (guide_updateTodo_agrees
              (UpdateArgs.mk 0 (Some [32; 32]) None None) db_milk)
    as (_ & _ & H).
  eexists _, _. split; [by vm_compute|].
  apply (H [32; 32]); [reflexivity|reflexivity|by vm_compute].
Defined.

(** X27: the pagination pattern of the guide shows the first page only:
    its query asks for [pageSize] documents, so page 0 shows the whole
    result, every later page is empty and the number of pages is at most
    one; a document older than the ten newest is on no page. *)
Theorem paginated_first_page_only (page : nat) db :
  ∃ todos,
    listTodos Guide.paginated_query db = (db, inr todos)
    ∧ (length todos <= Guide.pageSize)%nat
    ∧ Guide.paginatedTodos 0 todos = todos
    ∧ ((0 < page)%nat → Guide.paginatedTodos page todos = [])
    ∧ (Guide.totalPages todos <= 1)%nat.
Proof.
  eexists. split; [apply listTodos_eval|]. simpl.
  set (todos := query_result None Guide.pageSize db).
  assert (length todos <= 10)%nat as Hlen.
  { unfold todos. rewrite length_query_result. unfold Guide.pageSize. lia. }
  unfold Guide.paginatedTodos, Guide.totalPages, Guide.slice, Guide.pageSize.
  split_and!.
  - done.
  - simpl. by apply take_ge.
  - intros Hpage. rewrite drop_ge; [by rewrite take_nil|lia].
  - simpl Nat.sub. apply Nat.lt_succ_r, Nat.Div0.div_lt_upper_bound. lia.
Qed.

Lemma paginated_first_page_only_witness :
  ∃ todos,
    listTodos Guide.paginated_query db_crowded = (db_crowded, inr todos)
    ∧ (length todos <= 10)%nat
    ∧ Guide.paginatedTodos 1 todos = [].
Proof.
  destruct (paginated_first_page_only 1 db_crowded)
    as (todos & E & Hlen & _ & H & _).
  exists todos. split; [exact E|]. split; [exact Hlen|apply H; lia].
Defined.

End guide.

(** ** Ids the store has not issued, and the three filters *)

Section unissued.
Import JsString.
Implicit Types (db : Db.t) (id : N) (r : Row.t).

(** X28: in a reachable store an id the store has not issued yet has no
    document: [getTodo] returns [null] for it, [updateTodo] with any
    fields, [deleteTodo] and [toggleTodoCompleted] throw "Todo not found"
    and leave the store alone, and no list holds a document with it. *)
Theorem unissued_id (id : N) db :
  reachable db → Db.next_id db ≤ id →
  getTodo id db = (db, inr None)
  ∧ (∀ title description completed,
       updateTodo (UpdateArgs.mk id title description completed) db
       = (db, inl "Todo not found"%string))
  ∧ deleteTodo id db = (db, inl "Todo not found"%string)
  ∧ toggleTodoCompleted id db = (db, inl "Todo not found"%string)
  ∧ (∀ args, ∃ ds,
       listTodos args db = (db, inr ds) ∧ ∀ d, d ∈ ds → Todo._id d ≠ id).
Proof.
  intros Hreach Hid. pose proof (reachable_wf _ Hreach) as [Hb _].
  assert (Db.todos db !! id = None) as Hnone.
  { destruct (Db.todos db !! id) as [r|] eqn:Hr; [|done].
    destruct (Hb _ _ Hr). lia. }
  split_and!.
  - rewrite getTodo_eval. by rewrite Hnone.
  - intros title description completed. by apply updateTodo_missing.
  - by apply deleteTodo_missing.
  - by apply toggleTodoCompleted_missing.
  - intros args. eexists. split; [apply listTodos_eval|].
    intros d Hd%elem_of_query_result.
    apply elem_of_db_index_range in Hd as [(r & Hr & _) _].
    intros E. rewrite E in Hr. congruence.
Qed.

Lemma unissued_id_witness :
  getTodo 5 db_three = (db_three, inr None)
  ∧ deleteTodo 5 db_three = (db_three, inl "Todo not found"%string).
Proof.
  destruct (unissued_id 5 db_three) as (Hg & _ & Hd & _).
  - apply reachable_run, reachable_empty.
  - vm_compute. discriminate.
  - split; [exact Hg|exact Hd].
Defined.

(** X29: the three filters of [FilteredTodoList] split the todos: no todo
    is in both the completed and the pending list, and while the table
    holds at most 100 documents, the default limit, the two lists
    together hold exactly the todos of the list for "all". *)
Theorem filtered_lists_partition db :
  ∃ all completed pending,
    listTodos (Guide.filtered_query Guide.FilterAll) db = (db, inr all)
    ∧ listTodos (Guide.filtered_query Guide.FilterCompleted) db
      = (db, inr completed)
    ∧ listTodos (Guide.filtered_query Guide.FilterPending) db
      = (db, inr pending)
    ∧ (∀ d, d ∈ completed → d ∉ pending)
    ∧ ((size (Db.todos db) <= 100)%nat → completed ++ pending ≡ₚ all).
Proof.
  eexists _, _, _. split; [apply listTodos_eval|].
  split; [apply listTodos_eval|]. split; [apply listTodos_eval|].
  simpl. split.
  - intros d Hc%elem_of_query_result Hp%elem_of_query_result.
    apply elem_of_db_index_range in Hc as [_ Hc], Hp as [_ Hp].
    specialize (Hc _ eq_refl). specialize (Hp _ eq_refl). congruence.
  - intros Hsize. rewrite !query_result_scan by done.
    rewrite <-(filter_app_complement (λ d, Todo.completed d = true)
                 (query_result None 100 db)) at 3.
    f_equiv. erewrite list_filter_iff; [done|]. intros d. simpl.
    destruct (Todo.completed d); naive_solver.
Qed.

Lemma filtered_lists_partition_witness :
  ∃ all completed pending,
    listTodos (Guide.filtered_query Guide.FilterAll) db_three
    = (db_three, inr all)
    ∧ listTodos (Guide.filtered_query Guide.FilterCompleted) db_three
      = (db_three, inr completed)
    ∧ listTodos (Guide.filtered_query Guide.FilterPending) db_three
      = (db_three, inr pending)
    ∧ completed ++ pending ≡ₚ all.
Proof.
  destruct (filtered_lists_partition db_three)
    as (all & completed & pending & E1 & E2 & E3 & _ & H).
  exists all, completed, pending.
  split_and!; [exact E1|exact E2|exact E3|].
  apply H. vm_compute. lia.
Defined.

End unissued.
